(** * PageRank (pagerank.py): transition model, random surfer, Markov mixing

    A shallow embedding of [compute_transition], [make_one_move],
    [random_surfer] and [markov_mixing] together with the properties of
    the transition matrix and of the two rank computations.

    Conventions of the embedding.
    - Python [int]s are [Z]; list indices produced by [range] are [nat].
    - Python [float]s have two readings.  The exact reading takes them as
      the canonical rationals [Qc] of the Standard Library: [0.9] is 9/10,
      [0.1] is 1/10, and [+], [*], [/] are the field operations; every
      statement about sums being [1] is a statement of this reading.  The
      binary64 reading (module [B64]) takes them as IEEE doubles, Rocq's
      primitive floats, with every operation rounded as Python rounds it;
      it is the reading of the statements about the values the code
      stores and about the runs of [random_surfer].
    - A Python list is a [list]; [l[i]] is stdpp's lookup with an
      [IndexError] when it is out of range, [l[i] = v] is stdpp's insert
      guarded by the same range check.
    - Uncaught exceptions are values of [exn]; code that can raise lives in
      the [result] monad.
    - [random.uniform(0.0, 1.0)] is an explicit argument: the value drawn
      by the call.
    - For [read_graph] and the driver, the file system is a function from
      file names to what [open], [f.readline()] and
      [f.read().strip().split()] give, the builtin [int] on strings is a
      parameter, and standard output is a list of [printed] items. *)

From Stdlib Require Import ZArith QArith Qcanon Lia Ascii String.
From Stdlib Require Import PrimFloat SpecFloat FloatOps.
From stdpp Require Import base numbers list strings.

Local Open Scope Qc_scope.

(** ** Exceptions and the error monad *)

Inductive exn : Set :=
  | ZeroDivisionError
  | IndexError
  | TypeError.

Inductive result (A : Type) : Type :=
  | Ok (a : A)
  | Raise (e : exn).
Arguments Ok {A} a.
Arguments Raise {A} e.

#[global] Instance result_ret : MRet result := λ A a, Ok a.
#[global] Instance result_bind : MBind result := λ A B k m,
  match m with
  | Ok a => k a
  | Raise e => Raise e
  end.

#[global] Instance exn_eq_dec : EqDecision exn.
Proof. solve_decision. Defined.

(** ** Python primitives *)

#[global] Instance Qc_inhabited : Inhabited Qc := populate 0.

(** [float(z)] for an [int] [z]. *)
Definition float (z : Z) : Qc := Qc_of_Z z.

(** The literals [0.9] and [0.1]. *)
Definition f0_9 : Qc := Q2Qc (9 # 10).
Definition f0_1 : Qc := Q2Qc (1 # 10).

(** [x / y] on floats: raises on a zero divisor. *)
Definition truediv (x y : Qc) : result Qc :=
  if decide (y = 0) then Raise ZeroDivisionError else Ok (x / y).

(** [l[i]] *)
Definition getitem {A} (l : list A) (i : nat) : result A :=
  match l !! i with
  | Some x => Ok x
  | None => Raise IndexError
  end.

(** [l[i] = v] *)
Definition setitem {A} (l : list A) (i : nat) (v : A) : result (list A) :=
  if decide (i < length l)%nat then Ok (<[i:=v]> l) else Raise IndexError.

(** [for j in js: s = body(j, s)], stopping at the first exception. *)
Fixpoint for_in {St} (js : list nat) (body : nat → St → result St) (s : St)
  : result St :=
  match js with
  | [] => Ok s
  | j :: js' => s' ← body j s; for_in js' body s'
  end.

(** [for j in range(n)] *)
Definition for_range {St} (n : nat) (body : nat → St → result St) (s : St)
  : result St :=
  for_in (seq 0 n) body s.

(** [sum(l)] on floats: left to right, starting from 0. *)
Definition fsum (l : list Qc) : Qc := fold_left Qcplus l 0.

(** [sum(l)] on ints. *)
Definition isum (l : list Z) : Z := fold_left Z.add l 0%Z.

(** ** compute_transition *)

(** Body of the inner loop:
    [transition_matrix[i][j] = (0.9 * counts[i][j]/out_degree[i]) + (0.1 * 1/n)] *)
Definition transition_cell (counts : list (list Z)) (out_degree : list Z)
    (n i j : nat) (transition_matrix : list (list Qc))
  : result (list (list Qc)) :=
  counts_i ← getitem counts i;
  c ← getitem counts_i j;
  d ← getitem out_degree i;
  link ← truediv (f0_9 * float c) (float d);
  jump ← truediv (f0_1 * 1) (float (Z.of_nat n));
  row ← getitem transition_matrix i;
  row' ← setitem row j (link + jump);
  setitem transition_matrix i row'.

Definition compute_transition (counts : list (list Z)) (out_degree : list Z)
  : result (list (list Qc)) :=
  let n := length out_degree in
  transition_matrix ←
    for_range n (λ i tm, Ok (tm ++ [replicate n 0])) [];
  for_range n (λ i tm,
    for_range n (λ j tm, transition_cell counts out_degree n i j tm) tm)
    transition_matrix.

(** ** make_one_move *)

(** The scan [for j in range(n): psum += transition_matrix[page][j];
    if psum >= r: return j].  Falling off the end of the loop returns
    Python's [None]. *)
Fixpoint scan (transition_matrix : list (list Qc)) (page : nat) (r : Qc)
    (js : list nat) (psum : Qc) : result (option nat) :=
  match js with
  | [] => Ok None
  | j :: js' =>
      row ← getitem transition_matrix page;
      p ← getitem row j;
      let psum := psum + p in
      if decide (r ≤ psum) then Ok (Some j)
      else scan transition_matrix page r js' psum
  end.

(** [r] is the value returned by [random.uniform(0.0, 1.0)]. *)
Definition make_one_move (transition_matrix : list (list Qc)) (page : nat)
    (r : Qc) : result (option nat) :=
  let n := length transition_matrix in
  scan transition_matrix page r (seq 0 n) 0.

(** ** random_surfer *)

(** State of the walk: the current [page] and [times_visited]. *)
Definition walk_state : Type := nat * list Z.

(** One iteration of [for t in range(num_steps)]:
    [page = make_one_move(transition_matrix, page)] and
    [times_visited[page] += 1].  A [None] coming back from
    [make_one_move] is not a list index: [TypeError]. *)
Definition surf_step (transition_matrix : list (list Qc)) (draws : nat → Qc)
    (t : nat) (st : walk_state) : result walk_state :=
  let '(page, times_visited) := st in
  nxt ← make_one_move transition_matrix page (draws t);
  match nxt with
  | None => Raise TypeError
  | Some page =>
      count ← getitem times_visited page;
      times_visited ← setitem times_visited page (count + 1)%Z;
      Ok (page, times_visited)
  end.

(** Lines 129-135: [draws t] is the value drawn in iteration [t]. *)
Definition surf_walk (transition_matrix : list (list Qc)) (num_steps : Z)
    (draws : nat → Qc) : result walk_state :=
  let n := length transition_matrix in
  for_range (Z.to_nat num_steps) (surf_step transition_matrix draws)
    (0%nat, replicate n 0%Z).

(** What a run leaves behind: the values printed so far (before
    formatting) and the uncaught exception, if any. *)
Definition run : Type := list Qc * option exn.

(** [for count in times_visited: v = count / num_steps; print(v)] *)
Fixpoint print_ranks (times_visited : list Z) (num_steps : Z)
    (out : list Qc) : run :=
  match times_visited with
  | [] => (out, None)
  | count :: rest =>
      match truediv (float count) (float num_steps) with
      | Ok v => print_ranks rest num_steps (out ++ [v])
      | Raise e => (out, Some e)
      end
  end.

Definition random_surfer (transition_matrix : list (list Qc))
    (num_steps : Z) (draws : nat → Qc) : run :=
  match surf_walk transition_matrix num_steps draws with
  | Ok (_, times_visited) => print_ranks times_visited num_steps []
  | Raise e => ([], Some e)
  end.

(** ** markov_mixing *)

(** [new_rank[i] = new_rank[i] + rank[j] * transition_matrix[j][i]] *)
Definition mix_cell (transition_matrix : list (list Qc)) (rank : list Qc)
    (i j : nat) (new_rank : list Qc) : result (list Qc) :=
  acc ← getitem new_rank i;
  rank_j ← getitem rank j;
  row ← getitem transition_matrix j;
  p ← getitem row i;
  setitem new_rank i (acc + rank_j * p).

(** One iteration of [for t in range(num_steps)]. *)
Definition mix_step (transition_matrix : list (list Qc)) (t : nat)
    (rank : list Qc) : result (list Qc) :=
  let n := length transition_matrix in
  for_range n (λ i new_rank,
    for_range n (λ j new_rank, mix_cell transition_matrix rank i j new_rank)
      new_rank)
    (replicate n 0).

(** The rank vector after the loop (lines 155-166). *)
Definition mix_loop (transition_matrix : list (list Qc)) (num_steps : Z)
  : result (list Qc) :=
  let n := length transition_matrix in
  rank ← setitem (replicate n 0) 0 1;
  for_range (Z.to_nat num_steps) (mix_step transition_matrix) rank.

Definition markov_mixing (transition_matrix : list (list Qc))
    (num_steps : Z) : run :=
  match mix_loop transition_matrix num_steps with
  | Ok rank => (rank, None)
  | Raise e => ([], Some e)
  end.

(** ** Shapes and the mathematical reading of the spec *)

(** An [n]-by-[n] matrix. *)
Definition square {A} (n : nat) (m : list (list A)) : Prop :=
  length m = n ∧ Forall (λ row, length row = n) m.

(** Entry [(i, j)], with [d] outside the matrix. *)
Definition entry {A} (d : A) (m : list (list A)) (i j : nat) : A :=
  default d (m !! i ≫= λ row, row !! j).

(** Rows are distributions: non-negative entries that sum to one. *)
Definition row_stochastic (n : nat) (m : list (list Qc)) : Prop :=
  square n m ∧
  Forall (λ row, Forall (λ p, 0 ≤ p) row ∧ fsum row = 1) m.

(** The formula of the spec for entry [(i, j)]:
    [0.9 * (counts[i][j] / out_degree[i]) + 0.1 * (1/n)]. *)
Definition transition_formula (counts : list (list Z)) (out_degree : list Z)
    (n i j : nat) : Qc :=
  f0_9 * (float (entry 0%Z counts i j) / float (out_degree !!! i))
  + f0_1 * (1 / float (Z.of_nat n)).

(** Cumulative probability of columns [0..j] of a row. *)
Definition cumulative (row : list Qc) (j : nat) : Qc :=
  fsum (take (S j) row).

(** All mass on node 0: [[1.0, 0.0, ..., 0.0]]. *)
Definition unit0 (n : nat) : list Qc :=
  match n with
  | O => []
  | S m => 1 :: replicate m 0
  end.

(** Mathematical sum of [f j] for [j < n]. *)
Fixpoint bigsum (n : nat) (f : nat → Qc) : Qc :=
  match n with
  | O => 0
  | S m => bigsum m f + f m
  end.

(** The term [rank[j] * transition_matrix[j][i]]. *)
Definition mix_term (m : list (list Qc)) (rank : list Qc) (i j : nat) : Qc :=
  (rank !!! j) * entry 0 m j i.

(** Spec: [new_rank[i] = Σ_j rank[j] * transition_matrix[j][i]]. *)
Definition left_mult (m : list (list Qc)) (rank : list Qc) : list Qc :=
  let n := length m in
  map (λ i, bigsum n (mix_term m rank i)) (seq 0 n).

(** Spec: [k] left-multiplications starting from [unit0]. *)
Definition mixing_spec (m : list (list Qc)) (k : nat) : list Qc :=
  Nat.iter k (left_mult m) (unit0 (length m)).

(** Entry [(i, j)] as a partial lookup. *)
Definition get {A} (m : list (list A)) (i j : nat) : option A :=
  m !! i ≫= λ row, row !! j.

(** The value the code stores in cell [(i, j)], associated as the source
    writes it. *)
Definition cell (counts : list (list Z)) (out_degree : list Z)
    (n i j : nat) : Qc :=
  f0_9 * float (entry 0%Z counts i j) / float (out_degree !!! i)
  + f0_1 * 1 / float (Z.of_nat n).

(** Invariant of the walk of [random_surfer] after [k] iterations on [n]
    nodes: the page is a node and the tally counts [k] visits. *)
Definition walk_inv (n k : nat) (st : walk_state) : Prop :=
  (st.1 < n)%nat ∧ length st.2 = n ∧ isum st.2 = Z.of_nat k.

(** ** Worked inputs *)

(** The 3-cycle [0→1, 1→2, 2→0]: file ["3\n0 1\n1 2\n2 0\n"]. *)
Definition cycle3_counts : list (list Z) := [[0; 1; 0]; [0; 0; 1]; [1; 0; 0]]%Z.
Definition cycle3_out_degree : list Z := [1; 1; 1]%Z.

(** Its transition matrix: [0.9 + 0.1/3 = 14/15] on the links and
    [0.1/3 = 1/30] elsewhere. *)
Definition cycle3_matrix : list (list Qc) :=
  [[Q2Qc (1 # 30); Q2Qc (14 # 15); Q2Qc (1 # 30)];
   [Q2Qc (1 # 30); Q2Qc (1 # 30); Q2Qc (14 # 15)];
   [Q2Qc (14 # 15); Q2Qc (1 # 30); Q2Qc (1 # 30)]].

(** The single edge [0→1]: file ["2\n0 1\n"]; node 1 has out-degree 0. *)
Definition edge01_counts : list (list Z) := [[0; 1]; [0; 0]]%Z.
Definition edge01_out_degree : list Z := [1; 0]%Z.

(** A uniform 3-by-3 matrix whose entries were truncated to four decimals,
    so that every row sums to 0.9999, and a draw above that sum. *)
Definition truncated3_matrix : list (list Qc) :=
  replicate 3 (replicate 3 (Q2Qc (3333 # 10000))).
Definition high_draw : Qc := Q2Qc (99995 # 100000).

(** A constant stream of draws [0.5]. *)
Definition half_draws : nat → Qc := λ _, Q2Qc (1 # 2).

(** ** read_graph *)

(** What ends a run early: one of the exceptions of [exn], the
    [ValueError] of [int], the [AssertionError] of [assert], or
    [sys.exit(status)]. *)
Inductive failure : Set :=
  | Builtin (e : exn)
  | ValueError
  | AssertionError
  | SystemExit (status : Z).

Inductive outcome (A : Type) : Type :=
  | Return (a : A)
  | Fail (f : failure).
Arguments Return {A} a.
Arguments Fail {A} f.

#[global] Instance outcome_ret : MRet outcome := λ A a, Return a.
#[global] Instance outcome_bind : MBind outcome := λ A B k m,
  match m with
  | Return a => k a
  | Fail f => Fail f
  end.

(** An exception of [result] seen as a [failure]. *)
Definition lift {A} (r : result A) : outcome A :=
  match r with
  | Ok a => Return a
  | Raise e => Fail (Builtin e)
  end.

(** The items written to standard output: the three messages, a rank
    written by [print("{:.3f}".format(v), end=" ")], and the closing
    [print()]. *)
Inductive printed : Type :=
  | Usage (prog : string)
  | ErrorOpening (filename : string)
  | ErrorReading (filename : string)
  | Value (v : Qc)
  | Newline.

(** A file as [read_graph] sees it: [open] fails, or it gives a file whose
    [readline()] and whose [read().strip().split()] each either fail with an
    [OSError] ([None]) or give their value. *)
Inductive file : Type :=
  | OpenFails
  | Opened (readline : option string) (read : option (list string)).

(** The matrix of counts and the out-degrees. *)
Definition graph : Type := list (list Z) * list Z.

(** A Python list index: [i] in [0, len) is itself, [i] in [-len, 0) counts
    from the end, anything else is an [IndexError]. *)
Definition index (len : nat) (i : Z) : result nat :=
  if decide (0 ≤ i < Z.of_nat len)%Z then Ok (Z.to_nat i)
  else if decide (- Z.of_nat len ≤ i < 0)%Z
       then Ok (Z.to_nat (i + Z.of_nat len))
       else Raise IndexError.

(** [out_degree[u] += 1; counts[u][v] += 1] *)
Definition add_edge (u v : Z) (g : graph) : result graph :=
  let '(counts, out_degree) := g in
  iu ← index (length out_degree) u;
  d ← getitem out_degree iu;
  out_degree ← setitem out_degree iu (d + 1)%Z;
  iu ← index (length counts) u;
  row ← getitem counts iu;
  iv ← index (length row) v;
  c ← getitem row iv;
  row ← setitem row iv (c + 1)%Z;
  Ok (<[iu:=row]> counts, out_degree).

Section loader.
(** The builtin [int] on strings; [None] is its [ValueError]. *)
Variable int : string → option Z.

Definition parse (token : string) : outcome Z :=
  match int token with
  | Some z => Return z
  | None => Fail ValueError
  end.

(** [while len(tokens) > 0: u = int(tokens.pop(0)); v = int(tokens.pop(0));
    ...].  With a single token left, the second [pop] is on an empty
    list. *)
Fixpoint edge_loop (tokens : list string) (g : graph) : outcome graph :=
  match tokens with
  | [] => Return g
  | tu :: rest =>
      u ← parse tu;
      match rest with
      | [] => Fail (Builtin IndexError)
      | tv :: rest' =>
          v ← parse tv;
          g ← lift (add_edge u v g);
          edge_loop rest' g
      end
  end.

(** Lines 44-58, for the node count [n] and the tokens of the file (the
    [assert] is executed: the interpreter runs without [-O]). *)
Definition build_graph (n : Z) (tokens : list string) : outcome graph :=
  let out_degree := replicate (Z.to_nat n) 0%Z in
  counts ← lift (for_range (Z.to_nat n)
                   (λ i counts, Ok (counts ++ [replicate (Z.to_nat n) 0%Z]))
                   []);
  if Nat.even (length tokens) then edge_loop tokens (counts, out_degree)
  else Fail AssertionError.

(** [read_graph(filename)]: what is printed, and the graph or the way the
    call ends.  Only [OSError] is caught; the other exceptions escape. *)
Definition read_graph (fs : string → file) (filename : string)
  : list printed * outcome graph :=
  match fs filename with
  | OpenFails => ([ErrorOpening filename], Fail (SystemExit 1))
  | Opened readline read =>
      match readline with
      | None => ([ErrorReading filename], Fail (SystemExit 1))
      | Some line =>
          match int line with
          | None => ([], Fail ValueError)
          | Some n =>
              match read with
              | None => ([ErrorReading filename], Fail (SystemExit 1))
              | Some tokens => ([], build_graph n tokens)
              end
          end
      end
  end.

(** ** The program *)

(** The output of a rank computation: its values, and the closing newline
    when no exception cut it short. *)
Definition show (r : run) : list printed * option failure :=
  match r with
  | (values, None) => (map Value values ++ [Newline], None)
  | (values, Some e) => (map Value values, Some (Builtin e))
  end.

(** [print(usage); sys.exit(1)] *)
Definition usage (prog : string) : list printed * option failure :=
  ([Usage prog], Some (SystemExit 1)).

(** The [__main__] block on [sys.argv]; [None] is a normal end. *)
Definition main (argv : list string) (fs : string → file) (draws : nat → Qc)
  : list printed * option failure :=
  match argv with
  | [] => ([], Some (Builtin IndexError))
  | [prog; mode; filename; steps] =>
      if bool_decide (mode = "-r") || bool_decide (mode = "-m") then
        match read_graph fs filename with
        | (out, Fail f) => (out, Some f)
        | (out, Return (counts, out_degree)) =>
            match compute_transition counts out_degree with
            | Raise e => (out, Some (Builtin e))
            | Ok transition_matrix =>
                match int steps with
                | None => (out, Some ValueError)
                | Some num_steps =>
                    let (ranks, status) :=
                      if bool_decide (mode = "-r")
                      then show (random_surfer transition_matrix num_steps draws)
                      else show (markov_mixing transition_matrix num_steps)
                    in (out ++ ranks, status)
                end
            end
        end
      else usage prog
  | prog :: _ => usage prog
  end.

End loader.

(** ** The reading of a graph file *)

(** The node a valid index [z] stands for among [n] nodes. *)
Definition wrap (n : nat) (z : Z) : nat :=
  Z.to_nat (if decide (0 ≤ z)%Z then z else z + Z.of_nat n)%Z.

(** The pairs [(u, v)] of an even list of tokens that all convert. *)
Fixpoint edge_list (int : string → option Z) (tokens : list string)
  : list (Z * Z) :=
  match tokens with
  | tu :: tv :: rest =>
      match int tu, int tv with
      | Some u, Some v => (u, v) :: edge_list int rest
      | _, _ => []
      end
  | _ => []
  end.

(** Number of listed links from node [i] to node [j]. *)
Fixpoint link_count (n : nat) (edges : list (Z * Z)) (i j : nat) : Z :=
  match edges with
  | [] => 0
  | (u, v) :: rest =>
      ((if bool_decide (wrap n u = i ∧ wrap n v = j) then 1 else 0)
       + link_count n rest i j)%Z
  end.

(** Number of listed links leaving node [i]. *)
Fixpoint out_count (n : nat) (edges : list (Z * Z)) (i : nat) : Z :=
  match edges with
  | [] => 0
  | (u, v) :: rest =>
      ((if bool_decide (wrap n u = i) then 1 else 0) + out_count n rest i)%Z
  end.

(** What [read_graph] keeps true of the graph on [n] nodes it builds. *)
Definition graph_inv (n : nat) (g : graph) : Prop :=
  square n g.1 ∧ length g.2 = n
  ∧ Forall (Forall (λ c, (0 ≤ c)%Z)) g.1
  ∧ Forall (λ d, (0 ≤ d)%Z) g.2
  ∧ Forall2 (λ crow d, isum crow = d) g.1 g.2.

(** A token that converts to a valid index of a list of length [n]. *)
Definition node_token (int : string → option Z) (n : nat) (token : string)
  : Prop :=
  ∃ z, int token = Some z ∧ (- Z.of_nat n ≤ z < Z.of_nat n)%Z.

(** Token [t2] writes the node of token [t1] as a number in [[0, n)]. *)
Definition unwrapped (int : string → option Z) (n : nat) (t1 t2 : string)
  : Prop :=
  ∃ z, int t1 = Some z ∧ (- Z.of_nat n ≤ z < Z.of_nat n)%Z
       ∧ int t2 = Some (Z.of_nat (wrap n z)).

(** ** Worked files *)

(** A stand-in for [int] on plain numerals: optional blanks, an optional
    minus sign, decimal digits, optional blanks. *)
Definition is_blank (a : ascii) : bool :=
  bool_decide (a = " "%char) || bool_decide (nat_of_ascii a = 10%nat).

Definition digit (a : ascii) : option Z :=
  let k := nat_of_ascii a in
  if bool_decide (48 ≤ k ≤ 57)%nat then Some (Z.of_nat (k - 48)) else None.

Fixpoint all_blank (s : string) : bool :=
  match s with
  | EmptyString => true
  | String a s' => is_blank a && all_blank s'
  end.

Fixpoint digits (s : string) (acc : Z) (seen : bool) : option Z :=
  match s with
  | EmptyString => if seen then Some acc else None
  | String a s' =>
      match digit a with
      | Some d => digits s' (10 * acc + d)%Z true
      | None => if seen && all_blank s then Some acc else None
      end
  end.

Fixpoint int_decimal (s : string) : option Z :=
  match s with
  | EmptyString => None
  | String a s' =>
      if is_blank a then int_decimal s'
      else if bool_decide (a = "-"%char) then Z.opp <$> digits s' 0%Z false
      else digits s 0%Z false
  end.

Definition newline : string := String (ascii_of_nat 10) EmptyString.

(** ["cycle3.txt"] holds the 3-cycle, ["edge01.txt"] the single edge
    [0→1], ["wrapped.txt"] the 3-cycle written with negative node numbers,
    ["odd.txt"] three tokens, ["far.txt"] a link to a node that is not
    there; no other file exists. *)
Definition example_fs (filename : string) : file :=
  if bool_decide (filename = "cycle3.txt") then
    Opened (Some ("3" +:+ newline)) (Some ["0"; "1"; "1"; "2"; "2"; "0"])
  else if bool_decide (filename = "edge01.txt") then
    Opened (Some ("2" +:+ newline)) (Some ["0"; "1"])
  else if bool_decide (filename = "wrapped.txt") then
    Opened (Some ("3" +:+ newline)) (Some ["-3"; "1"; "-2"; "-1"; "2"; "-3"])
  else if bool_decide (filename = "odd.txt") then
    Opened (Some ("2" +:+ newline)) (Some ["0"; "1"; "1"])
  else if bool_decide (filename = "far.txt") then
    Opened (Some ("2" +:+ newline)) (Some ["0"; "2"])
  else OpenFails.

(** A matrix whose second row is too short. *)
Definition ragged_matrix : list (list Qc) :=
  [[Q2Qc (1 # 2); Q2Qc (1 # 2)]; [1]].

(** ** The binary64 reading *)

(** The same code with Python's [float] as IEEE binary64 (Rocq's primitive
    floats): every [+], [*], [/] rounds to nearest, ties to even, an [int]
    is converted to the nearest double, and a conversion or quotient too
    large for a double is an [OverflowError]. *)
Module B64.

Inductive error : Set :=
  | Builtin (e : exn)
  | OverflowError.

Inductive answer (A : Type) : Type :=
  | Done (a : A)
  | Err (e : error).
Arguments Done {A} a.
Arguments Err {A} e.

#[global] Instance answer_ret : MRet answer := λ A a, Done a.
#[global] Instance answer_bind : MBind answer := λ A B k m,
  match m with
  | Done a => k a
  | Err e => Err e
  end.

Definition lift {A} (r : result A) : answer A :=
  match r with
  | Ok a => Done a
  | Raise e => Err (Builtin e)
  end.

(** [for j in js], [for j in range(n)] with the exceptions of [answer]. *)
Fixpoint for_in_answer {St} (js : list nat) (body : nat → St → answer St) (s : St)
  : answer St :=
  match js with
  | [] => Done s
  | j :: js' => s' ← body j s; for_in_answer js' body s'
  end.

Definition for_range_answer {St} (n : nat) (body : nat → St → answer St)
    (s : St) : answer St :=
  for_in_answer (seq 0 n) body s.

(** The doubles written [0.9] and [0.1]. *)
Definition f0_9 : PrimFloat.float := 0x1.ccccccccccccdp-1%float.
Definition f0_1 : PrimFloat.float := 0x1.999999999999ap-4%float.

(** The least magnitude that rounds beyond the largest double. *)
Definition overflow_threshold : Z := (2 ^ 1024 - 2 ^ 970)%Z.

(** An integer whose conversion to [float] does not overflow. *)
Definition fits (z : Z) : Prop := (Z.abs z < overflow_threshold)%Z.

(** The double nearest to an integer. *)
Definition nearest (z : Z) : PrimFloat.float :=
  SF2Prim (binary_normalize prec emax z 0 false).

(** The conversion of an [int] operand of a float operation. *)
Definition float_of_int (z : Z) : answer PrimFloat.float :=
  if decide (fits z) then Done (nearest z) else Err OverflowError.

(** [x / d] for a float [x] and an int [d]: [d] is converted, then tested. *)
Definition truediv (x : PrimFloat.float) (d : Z) : answer PrimFloat.float :=
  y ← float_of_int d;
  if decide (d = 0%Z) then Err (Builtin ZeroDivisionError)
  else Done (PrimFloat.div x y).

(** An integer as an exact, unrounded operand. *)
Definition operand (z : Z) : spec_float :=
  match z with
  | Z0 => S754_zero false
  | Zpos p => S754_finite false p 0
  | Zneg p => S754_finite true p 0
  end.

(** The double nearest to the exact quotient [a / b]. *)
Definition quotient (a b : Z) : PrimFloat.float :=
  SF2Prim (SFdiv prec emax (operand a) (operand b)).

(** [a / b] on ints: the correctly rounded quotient. *)
Definition int_truediv (a b : Z) : answer PrimFloat.float :=
  if decide (b = 0%Z) then Err (Builtin ZeroDivisionError)
  else if decide (Z.abs a < Z.abs b * overflow_threshold)%Z
       then Done (quotient a b)
       else Err OverflowError.

(** Line 90. *)
Definition transition_cell (counts : list (list Z)) (out_degree : list Z)
    (n i j : nat) (transition_matrix : list (list PrimFloat.float))
  : answer (list (list PrimFloat.float)) :=
  counts_i ← lift (getitem counts i);
  c ← lift (getitem counts_i j);
  c ← float_of_int c;
  d ← lift (getitem out_degree i);
  link ← truediv (PrimFloat.mul f0_9 c) d;
  one ← float_of_int 1;
  jump ← truediv (PrimFloat.mul f0_1 one) (Z.of_nat n);
  row ← lift (getitem transition_matrix i);
  row' ← lift (setitem row j (PrimFloat.add link jump));
  lift (setitem transition_matrix i row').

Definition compute_transition (counts : list (list Z)) (out_degree : list Z)
  : answer (list (list PrimFloat.float)) :=
  let n := length out_degree in
  transition_matrix ←
    for_range_answer n
      (λ i tm, Done (tm ++ [replicate n PrimFloat.zero])) [];
  for_range_answer n (λ i tm,
    for_range_answer n
      (λ j tm, transition_cell counts out_degree n i j tm) tm)
    transition_matrix.

(** The value line 90 stores, with the operations in the order of the
    source. *)
Definition cell (c d : Z) (n : nat) : PrimFloat.float :=
  PrimFloat.add
    (PrimFloat.div (PrimFloat.mul f0_9 (nearest c)) (nearest d))
    (PrimFloat.div (PrimFloat.mul f0_1 (nearest 1)) (nearest (Z.of_nat n))).

(** The formula of the spec, [0.9 * (c / d) + 0.1 * (1 / n)], in
    binary64. *)
Definition formula (c d : Z) (n : nat) : PrimFloat.float :=
  PrimFloat.add
    (PrimFloat.mul f0_9 (quotient c d))
    (PrimFloat.mul f0_1 (quotient 1 (Z.of_nat n))).

(** Lines 108-113: [psum >= r] is [r <= psum] on doubles. *)
Fixpoint scan (transition_matrix : list (list PrimFloat.float)) (page : nat)
    (r : PrimFloat.float) (js : list nat) (psum : PrimFloat.float)
  : result (option nat) :=
  match js with
  | [] => Ok None
  | j :: js' =>
      row ← getitem transition_matrix page;
      p ← getitem row j;
      let psum := PrimFloat.add psum p in
      if PrimFloat.leb r psum then Ok (Some j)
      else scan transition_matrix page r js' psum
  end.

Definition make_one_move (transition_matrix : list (list PrimFloat.float))
    (page : nat) (r : PrimFloat.float) : result (option nat) :=
  let n := length transition_matrix in
  scan transition_matrix page r (seq 0 n) PrimFloat.zero.

Definition surf_step (transition_matrix : list (list PrimFloat.float))
    (draws : nat → PrimFloat.float) (t : nat) (st : walk_state)
  : result walk_state :=
  let '(page, times_visited) := st in
  nxt ← make_one_move transition_matrix page (draws t);
  match nxt with
  | None => Raise TypeError
  | Some page =>
      count ← getitem times_visited page;
      times_visited ← setitem times_visited page (count + 1)%Z;
      Ok (page, times_visited)
  end.

Definition surf_walk (transition_matrix : list (list PrimFloat.float))
    (num_steps : Z) (draws : nat → PrimFloat.float) : result walk_state :=
  let n := length transition_matrix in
  for_range (Z.to_nat num_steps) (surf_step transition_matrix draws)
    (0%nat, replicate n 0%Z).

(** The values printed, and the uncaught exception, if any. *)
Definition run : Type := list PrimFloat.float * option error.

Fixpoint print_ranks (times_visited : list Z) (num_steps : Z)
    (out : list PrimFloat.float) : run :=
  match times_visited with
  | [] => (out, None)
  | count :: rest =>
      match int_truediv count num_steps with
      | Done v => print_ranks rest num_steps (out ++ [v])
      | Err e => (out, Some e)
      end
  end.

Definition random_surfer (transition_matrix : list (list PrimFloat.float))
    (num_steps : Z) (draws : nat → PrimFloat.float) : run :=
  match surf_walk transition_matrix num_steps draws with
  | Ok (_, times_visited) => print_ranks times_visited num_steps []
  | Raise e => ([], Some (Builtin e))
  end.

(** The running sum of columns [0..j], added left to right from [0.0]. *)
Definition cumulative (row : list PrimFloat.float) (j : nat)
  : PrimFloat.float :=
  fold_left PrimFloat.add (take (S j) row) PrimFloat.zero.

(** [sum(l)], left to right from [0.0]. *)
Definition fsum (l : list PrimFloat.float) : PrimFloat.float :=
  fold_left PrimFloat.add l PrimFloat.zero.

(** The rational a finite double stands for. *)
Definition exact (x : PrimFloat.float) : Qc :=
  match Prim2SF x with
  | S754_finite s m e =>
      let q := match e with
               | Zneg k => Qmake (Zpos m) (2 ^ k)%positive
               | _ => inject_Z (Zpos m * 2 ^ e)
               end in
      Q2Qc (if s then Qopp q else q)
  | _ => 0
  end.

(** Every draw of the first [steps] iterations is reached by the running
    sum of every row at some column. *)
Definition reaches (transition_matrix : list (list PrimFloat.float))
    (n steps : nat) (draws : nat → PrimFloat.float) : Prop :=
  ∀ t page row, (t < steps)%nat → transition_matrix !! page = Some row →
    ∃ j, (j < n)%nat ∧ PrimFloat.leb (draws t) (cumulative row j) = true.

(** A row of nine doubles, [1 - 2^-52] and eight times [2^-55], whose
    exact sum is 1, and the largest draw, [1 - 2^-53]. *)
Definition row9 : list PrimFloat.float :=
  0x1.ffffffffffffep-1%float :: replicate 8 0x1p-55%float.
Definition matrix9 : list (list PrimFloat.float) := replicate 9 row9.
Definition top_draw : PrimFloat.float := 0x1.fffffffffffffp-1%float.

(** Five nodes, each with six links: one to every node and a second one
    to node 2. *)
Definition six_links : list (list Z) := replicate 5 [1; 1; 2; 1; 1]%Z.
Definition six_degrees : list Z := replicate 5 6%Z.

(** The cycle [0→1→...→9→0] as a matrix of ones and zeros. *)
Definition cycle10 : list (list PrimFloat.float) :=
  map (λ i, map (λ j, if decide (j = (i + 1) mod 10)%nat
                      then PrimFloat.one else PrimFloat.zero) (seq 0 10))
      (seq 0 10).

(** A matrix on which every draw up to [0.5] is reached. *)
Definition halves : list (list PrimFloat.float) :=
  replicate 2 [0x1p-1%float; 0x1p-1%float].

End B64.

(** * Properties *)

(** Equality of evaluated lists of rationals, component by component. *)
Ltac qc_lists := repeat first [ by apply Qc_is_canon | f_equal ].

(** ** The error monad and loops *)

Lemma bind_Ok {A B} (m : result A) (k : A → result B) a :
  m = Ok a → (m ≫= k) = k a.
Proof. by intros ->. Qed.

Lemma bind_Raise {A B} (m : result A) (k : A → result B) e :
  m = Raise e → (m ≫= k) = Raise e.
Proof. by intros ->. Qed.

Lemma getitem_Some {A} (l : list A) i x : l !! i = Some x → getitem l i = Ok x.
Proof. unfold getitem. by intros ->. Qed.

Lemma getitem_None {A} (l : list A) i :
  l !! i = None → getitem l i = Raise IndexError.
Proof. unfold getitem. by intros ->. Qed.

Lemma setitem_lt {A} (l : list A) i v :
  (i < length l)%nat → setitem l i v = Ok (<[i:=v]> l).
Proof. intros. unfold setitem. by rewrite decide_True. Qed.

(** A loop over [a, a+m) that keeps an invariant runs to completion. *)
Lemma for_in_seq_inv {St} (P : nat → St → Prop) (body : nat → St → result St) m :
  ∀ a s,
    P a s →
    (∀ k s, (a ≤ k < a + m)%nat → P k s →
            ∃ s', body k s = Ok s' ∧ P (S k) s') →
    ∃ s', for_in (seq a m) body s = Ok s' ∧ P (a + m)%nat s'.
Proof.
  induction m as [|m IH]; intros a s HP Hstep; simpl.
  - exists s. by rewrite Nat.add_0_r.
  - destruct (Hstep a s) as (s1 & E1 & P1); [lia | done |].
    rewrite (bind_Ok _ _ _ E1).
    destruct (IH (S a) s1) as (s2 & E2 & P2); [done | |].
    + intros k s0 Hk. apply Hstep. lia.
    + exists s2. split; [done |].
      by replace (a + S m)%nat with (S a + m)%nat by lia.
Qed.

Lemma for_range_inv {St} (P : nat → St → Prop) (body : nat → St → result St) n s :
  P 0%nat s →
  (∀ k s, (k < n)%nat → P k s →
          ∃ s', body k s = Ok s' ∧ P (S k) s') →
  ∃ s', for_range n body s = Ok s' ∧ P n s'.
Proof.
  intros HP Hstep.
  apply (for_in_seq_inv P body n 0%nat s HP).
  intros k s0 Hk. apply Hstep. lia.
Qed.

(** A loop whose iteration [k] raises, after [k] good iterations, raises. *)
Lemma for_in_seq_raise {St} (P : nat → St → Prop) (body : nat → St → result St)
    e k m :
  ∀ a s,
    P a s → (a ≤ k < a + m)%nat →
    (∀ j s, (a ≤ j < k)%nat → P j s →
            ∃ s', body j s = Ok s' ∧ P (S j) s') →
    (∀ s, P k s → body k s = Raise e) →
    for_in (seq a m) body s = Raise e.
Proof.
  induction m as [|m IH]; intros a s HP Hk Hstep Hbad; [lia |]. simpl.
  destruct (decide (a = k)) as [->|Hne].
  - by rewrite (bind_Raise _ _ e (Hbad s HP)).
  - destruct (Hstep a s) as (s1 & E1 & P1); [lia | done |].
    rewrite (bind_Ok _ _ _ E1).
    apply IH; [done | lia | | done].
    intros j s0 Hj. apply Hstep. lia.
Qed.

Lemma for_range_raise {St} (P : nat → St → Prop) (body : nat → St → result St)
    e k n s :
  P 0%nat s → (k < n)%nat →
  (∀ j s, (j < k)%nat → P j s →
          ∃ s', body j s = Ok s' ∧ P (S j) s') →
  (∀ s, P k s → body k s = Raise e) →
  for_range n body s = Raise e.
Proof.
  intros HP Hk Hstep Hbad.
  apply (for_in_seq_raise P body e k n 0%nat s HP); [lia | | done].
  intros j s0 Hj. apply Hstep. lia.
Qed.

(** A loop that completes ran every one of its iterations. *)
Lemma for_in_Ok_body {St} (body : nat → St → result St) js :
  ∀ s s', for_in js body s = Ok s' →
  ∀ k, k ∈ js → ∃ x y, body k x = Ok y.
Proof.
  induction js as [|j js IH]; intros s s' Hrun k Hk.
  - by apply elem_of_nil in Hk.
  - simpl in Hrun. destruct (body j s) as [s1|e] eqn:E; [|done].
    apply elem_of_cons in Hk as [->|Hk]; [by eauto |].
    by eapply IH.
Qed.

Lemma for_range_Ok_body {St} (body : nat → St → result St) n s s' k :
  for_range n body s = Ok s' → (k < n)%nat → ∃ x y, body k x = Ok y.
Proof.
  intros Hrun Hk. eapply for_in_Ok_body; [exact Hrun |].
  apply elem_of_seq. lia.
Qed.

(** ** Arithmetic of the model *)

Lemma float_eq_0 z : float z = 0 ↔ z = 0%Z.
Proof. unfold float. rewrite <- Z2Qc_inj_0. apply Z2Qc_inj_iff. Qed.

Lemma float_pos z : (0 < z)%Z → 0 < float z.
Proof. unfold float. rewrite <- Z2Qc_inj_0. apply Z2Qc_inj_lt. Qed.

Lemma float_nonneg z : (0 ≤ z)%Z → 0 ≤ float z.
Proof. unfold float. rewrite <- Z2Qc_inj_0. apply Z2Qc_inj_le. Qed.

Lemma float_nat_pos n : (0 < n)%nat → 0 < float (Z.of_nat n).
Proof. intros. apply float_pos. lia. Qed.

Lemma float_nat_ne_0 n : (0 < n)%nat → float (Z.of_nat n) ≠ 0.
Proof. intros Hn. rewrite float_eq_0. lia. Qed.

Lemma f0_9_plus_f0_1 : f0_9 + f0_1 = 1.
Proof. by apply Qc_is_canon. Qed.

Lemma f0_9_pos : 0 < f0_9.
Proof. done. Qed.

Lemma f0_1_pos : 0 < f0_1.
Proof. done. Qed.

Lemma truediv_ne x y : y ≠ 0 → truediv x y = Ok (x / y).
Proof. intros. unfold truediv. by rewrite decide_False. Qed.

Lemma truediv_0 x y : y = 0 → truediv x y = Raise ZeroDivisionError.
Proof. intros. unfold truediv. by rewrite decide_True. Qed.

Lemma fsum_acc l : ∀ a, fold_left Qcplus l a = a + fsum l.
Proof.
  unfold fsum. induction l as [|x l IH]; intros a; simpl.
  - ring.
  - rewrite (IH (a + x)), (IH (0 + x)). ring.
Qed.

Lemma fsum_nil : fsum [] = 0.
Proof. done. Qed.

Lemma fsum_cons x l : fsum (x :: l) = x + fsum l.
Proof. unfold fsum at 1. simpl. rewrite fsum_acc. ring. Qed.

Lemma fsum_app l1 l2 : fsum (l1 ++ l2) = fsum l1 + fsum l2.
Proof.
  induction l1 as [|x l1 IH]; simpl.
  - rewrite fsum_nil. ring.
  - rewrite !fsum_cons, IH. ring.
Qed.

Lemma isum_acc l : ∀ a, fold_left Z.add l a = (a + isum l)%Z.
Proof.
  unfold isum. induction l as [|x l IH]; intros a; simpl.
  - lia.
  - rewrite (IH (a + x)%Z), (IH (0 + x)%Z). lia.
Qed.

Lemma isum_cons x l : isum (x :: l) = (x + isum l)%Z.
Proof. unfold isum at 1. simpl. by rewrite isum_acc. Qed.

(** ** Matrices as lists of rows *)

Lemma square_lookup {A} n (m : list (list A)) i :
  square n m → (i < n)%nat → ∃ row, m !! i = Some row ∧ length row = n.
Proof.
  intros [Hlen Hrows] Hi.
  destruct (lookup_lt_is_Some_2 m i) as [row Hrow]; [lia |].
  exists row. split; [done |].
  by apply (Forall_lookup_1 _ _ _ _ Hrows Hrow).
Qed.

Lemma square_get {A} n (m : list (list A)) i j :
  square n m → (i < n)%nat → (j < n)%nat → is_Some (get m i j).
Proof.
  intros Hsq Hi Hj. destruct (square_lookup n m i Hsq Hi) as (row & Hrow & Hlen).
  unfold get. rewrite Hrow. simpl. apply lookup_lt_is_Some_2. lia.
Qed.

Lemma square_insert {A} n (m : list (list A)) i row :
  square n m → length row = n → square n (<[i:=row]> m).
Proof.
  intros [Hlen Hrows] Hrow. split.
  - by rewrite length_insert.
  - by apply Forall_insert.
Qed.

Lemma get_entry {A} (d : A) m i j x : get m i j = Some x → entry d m i j = x.
Proof. unfold get, entry. by intros ->. Qed.

Lemma get_insert {A} (m : list (list A)) i j row v i' j' :
  m !! i = Some row → (j < length row)%nat →
  get (<[i:=<[j:=v]> row]> m) i' j'
  = if decide (i' = i ∧ j' = j) then Some v else get m i' j'.
Proof.
  intros Hrow Hj. unfold get.
  assert (i < length m)%nat by (by eapply lookup_lt_Some).
  destruct (decide (i' = i)) as [->|Hi].
  - rewrite list_lookup_insert_eq by done. simpl. rewrite Hrow. simpl.
    destruct (decide (j' = j)) as [->|Hj'].
    + rewrite decide_True by done. by apply list_lookup_insert_eq.
    + rewrite decide_False by tauto. by apply list_lookup_insert_ne.
  - rewrite decide_False by tauto. by rewrite list_lookup_insert_ne.
Qed.

(** ** compute_transition: the matrix that is built *)

Lemma zero_matrix_loop n :
  for_range n (λ (i : nat) (tm : list (list Qc)), Ok (tm ++ [replicate n 0])) []
  = Ok (replicate n (replicate n 0)).
Proof.
  destruct (for_range_inv
              (λ k (tm : list (list Qc)), tm = replicate k (replicate n 0))
              (λ i tm, Ok (tm ++ [replicate n 0])) n [])
    as (tm & E & ->); [done | | done].
  intros k s _ ->. eexists. split; [done |]. by rewrite replicate_S_end.
Qed.

Lemma square_zero n : square n (replicate n (replicate n (0 : Qc))).
Proof.
  split; [apply length_replicate |].
  apply Forall_replicate, length_replicate.
Qed.

Section transition.
Variables (counts : list (list Z)) (out_degree : list Z) (n : nat).
Hypothesis Hlen : length out_degree = n.
Hypothesis Hcounts : square n counts.

Lemma transition_cell_Ok i j tm row :
  (i < n)%nat → (j < n)%nat → out_degree !!! i ≠ 0%Z →
  tm !! i = Some row → length row = n →
  transition_cell counts out_degree n i j tm
  = Ok (<[i:=<[j:=cell counts out_degree n i j]> row]> tm).
Proof.
  intros Hi Hj Hd Hrow Hrowlen. unfold transition_cell, cell.
  destruct (square_lookup n counts i Hcounts Hi) as (crow & Hcrow & Hcl).
  destruct (lookup_lt_is_Some_2 crow j) as [c Hc]; [lia |].
  rewrite (get_entry 0%Z counts i j c) by (unfold get; by rewrite Hcrow).
  rewrite (bind_Ok _ _ _ (getitem_Some _ _ _ Hcrow)).
  rewrite (bind_Ok _ _ _ (getitem_Some _ _ _ Hc)).
  assert (out_degree !! i = Some (out_degree !!! i)) as Hod
    by (apply list_lookup_lookup_total_lt; lia).
  rewrite (bind_Ok _ _ _ (getitem_Some _ _ _ Hod)).
  rewrite (bind_Ok _ _ _ (truediv_ne _ _ (proj2 (not_iff_compat (float_eq_0 _)) Hd))).
  rewrite (bind_Ok _ _ _ (truediv_ne _ _ (float_nat_ne_0 n ltac:(lia)))).
  rewrite (bind_Ok _ _ _ (getitem_Some _ _ _ Hrow)).
  rewrite (bind_Ok _ _ _ (setitem_lt row j _ ltac:(lia))).
  apply setitem_lt. by eapply lookup_lt_Some.
Qed.

(** The inner loop fills row [i] and leaves the other rows alone. *)
Lemma transition_row_loop i tm :
  (i < n)%nat → out_degree !!! i ≠ 0%Z → square n tm →
  ∃ tm',
    for_range n (λ j tm, transition_cell counts out_degree n i j tm) tm
    = Ok tm'
    ∧ square n tm'
    ∧ (∀ i' j, i' ≠ i → get tm' i' j = get tm i' j)
    ∧ (∀ j, (j < n)%nat → get tm' i j = Some (cell counts out_degree n i j)).
Proof.
  intros Hi Hd Hsq.
  apply (for_range_inv (λ k s,
    square n s
    ∧ (∀ i' j, i' ≠ i → get s i' j = get tm i' j)
    ∧ (∀ j, (j < k)%nat → get s i j = Some (cell counts out_degree n i j)))).
  - split; [done |]. split; [done |]. intros j Hj. lia.
  - intros k s Hk (Hs & Hother & Hdone).
    destruct (square_lookup n s i Hs Hi) as (row & Hrow & Hrowlen).
    eexists. split; [by apply transition_cell_Ok |].
    split; [|split].
    + apply square_insert; [done |]. by rewrite length_insert.
    + intros i' j Hne. rewrite (get_insert s i k row) by (done || lia).
      rewrite decide_False by tauto. by apply Hother.
    + intros j Hj. rewrite (get_insert s i k row) by (done || lia).
      destruct (decide (i = i ∧ j = k)) as [[_ ->]|Hne]; [done |].
      apply Hdone. destruct (decide (j = k)); [tauto | lia].
Qed.

(** On a well-shaped input without a zero out-degree the call returns,
    and cell [(i, j)] holds the value of the assignment. *)
Lemma compute_transition_cells :
  Forall (λ d, d ≠ 0%Z) out_degree →
  ∃ T, compute_transition counts out_degree = Ok T
       ∧ square n T
       ∧ ∀ i j, (i < n)%nat → (j < n)%nat →
                get T i j = Some (cell counts out_degree n i j).
Proof.
  intros Hnz. unfold compute_transition. rewrite Hlen.
  rewrite (bind_Ok _ _ _ (zero_matrix_loop n)).
  destruct (for_range_inv (λ k s,
    square n s
    ∧ ∀ i j, (i < k)%nat → (j < n)%nat →
             get s i j = Some (cell counts out_degree n i j))
    (λ i tm,
      for_range n (λ j tm, transition_cell counts out_degree n i j tm) tm)
    n (replicate n (replicate n 0))) as (T & E & HsqT & HT).
  - split; [apply square_zero |]. intros i j Hi. lia.
  - intros k s Hk (Hs & Hdone).
    destruct (transition_row_loop k s Hk) as (s' & E & Hs' & Hother & Hrow);
      [| done |].
    { apply (Forall_lookup_total_1 _ _ _ Hnz). lia. }
    exists s'. split; [done |]. split; [done |].
    intros i j Hi Hj. destruct (decide (i = k)) as [->|Hne].
    + by apply Hrow.
    + rewrite Hother by done. apply Hdone; lia.
  - by exists T.
Qed.

End transition.

Lemma cell_formula counts out_degree n i j :
  (0 < n)%nat → out_degree !!! i ≠ 0%Z →
  cell counts out_degree n i j = transition_formula counts out_degree n i j.
Proof.
  intros Hn Hd. unfold cell, transition_formula.
  apply float_nat_ne_0 in Hn. rewrite <- float_eq_0 in Hd.
  by field.
Qed.

Lemma cell_floor counts out_degree n i j :
  (0 < n)%nat → (0 ≤ entry 0%Z counts i j)%Z → (1 ≤ out_degree !!! i)%Z →
  f0_1 / float (Z.of_nat n) ≤ cell counts out_degree n i j
  ∧ 0 < cell counts out_degree n i j.
Proof.
  intros Hn Hc Hd. unfold cell.
  assert (0 < / float (Z.of_nat n)) as Hinvn
    by by apply Qcinv_pos, float_nat_pos.
  assert (0 ≤ f0_9 * float (entry 0%Z counts i j) / float (out_degree !!! i))
    as Hlink.
  { apply Qcmult_nonneg_nonneg.
    - apply Qcmult_nonneg_nonneg; [apply Qclt_le_weak, f0_9_pos |].
      by apply float_nonneg.
    - apply Qclt_le_weak, Qcinv_pos, float_pos. lia. }
  assert (0 < f0_1 * 1 / float (Z.of_nat n)) as Hjump.
  { rewrite Qcmult_1_r. apply Qcmult_pos_pos; [apply f0_1_pos | done]. }
  split.
  - rewrite Qcmult_1_r.
    rewrite <- (Qcplus_0_l (f0_1 / _)) at 1.
    by apply Qcplus_le_mono_r.
  - by apply Qcplus_nonneg_pos.
Qed.

(** Sum of a row of the matrix, from the sum of the row of counts. *)
Lemma fsum_transition_row (crow : list Z) (D B : Qc) :
  D ≠ 0 →
  fsum (map (λ c, f0_9 * float c / D + B) crow)
  = f0_9 * float (isum crow) / D + float (Z.of_nat (length crow)) * B.
Proof.
  intros HD. induction crow as [|c crow IH].
  - cbn [map length]. rewrite fsum_nil.
    change (isum []) with 0%Z. change (Z.of_nat 0) with 0%Z.
    unfold float. rewrite Z2Qc_inj_0. by field.
  - cbn [map length]. rewrite fsum_cons, isum_cons, IH, Nat2Z.inj_succ.
    unfold float. rewrite <- Z.add_1_l, !Z2Qc_inj_add, Z2Qc_inj_1. by field.
Qed.

(** The least index holding a zero. *)
Lemma first_zero (l : list Z) i :
  l !! i = Some 0%Z →
  ∃ i0, l !! i0 = Some 0%Z ∧ ∀ k, (k < i0)%nat → l !!! k ≠ 0%Z.
Proof.
  revert i. induction l as [|d l IH]; intros i Hi; [done |].
  destruct (decide (d = 0%Z)) as [->|Hd].
  - exists 0%nat. split; [done |]. intros k Hk. lia.
  - destruct i as [|i]; [by injection Hi |].
    destruct (IH i Hi) as (i0 & Hi0 & Hleast).
    exists (S i0). split; [done |].
    intros [|k] Hk; [done |]. apply Hleast. lia.
Qed.


Lemma transition_cell_ZeroDivisionError counts out_degree n i j tm :
  square n counts → (i < n)%nat → (j < n)%nat →
  out_degree !! i = Some 0%Z →
  transition_cell counts out_degree n i j tm = Raise ZeroDivisionError.
Proof.
  intros Hsq Hi Hj Hod. unfold transition_cell.
  destruct (square_lookup n counts i Hsq Hi) as (crow & Hcrow & Hcl).
  destruct (lookup_lt_is_Some_2 crow j) as [c Hc]; [lia |].
  rewrite (bind_Ok _ _ _ (getitem_Some _ _ _ Hcrow)).
  rewrite (bind_Ok _ _ _ (getitem_Some _ _ _ Hc)).
  rewrite (bind_Ok _ _ _ (getitem_Some _ _ _ Hod)).
  by rewrite (bind_Raise _ _ _ (truediv_0 _ (float 0) (proj2 (float_eq_0 _) eq_refl))).
Qed.

Lemma entry_nonneg (counts : list (list Z)) i j :
  Forall (Forall (λ c, (0 ≤ c)%Z)) counts → (0 ≤ entry 0%Z counts i j)%Z.
Proof.
  intros Hpos. unfold entry.
  destruct (counts !! i) as [crow|] eqn:Hcrow; [simpl | done].
  destruct (crow !! j) as [c|] eqn:Hc; [simpl | done].
  apply (Forall_lookup_1 _ _ _ _ (Forall_lookup_1 _ _ _ _ Hpos Hcrow) Hc).
Qed.

Lemma Forall_ge1_ne0 (l : list Z) :
  Forall (λ d, (1 ≤ d)%Z) l → Forall (λ d, d ≠ 0%Z) l.
Proof. intros H. eapply Forall_impl; [exact H |]. intros d Hd. simpl in Hd. lia. Qed.

(** The formula of the spec in the exact reading.  For [n > 0], an
    [n]-by-[n] matrix [counts] and a length-[n] vector [out_degree]
    without a zero, [compute_transition] returns an [n]-by-[n] matrix [T]
    with
    [T[i][j] = 0.9 * (counts[i][j] / out_degree[i]) + 0.1 * (1/n)] for every
    [i] and [j].  (The sign of the counts plays no part.) *)
Theorem compute_transition_formula counts out_degree n :
  (0 < n)%nat → length out_degree = n → square n counts →
  Forall (λ d, d ≠ 0%Z) out_degree →
  ∃ T, compute_transition counts out_degree = Ok T
       ∧ square n T
       ∧ ∀ i j, (i < n)%nat → (j < n)%nat →
           get T i j = Some (transition_formula counts out_degree n i j).
Proof.
  intros Hn Hlen Hsq Hnz.
  destruct (compute_transition_cells counts out_degree n Hlen Hsq Hnz)
    as (T & E & HsqT & HT).
  exists T. split; [done |]. split; [done |].
  intros i j Hi Hj. rewrite (HT i j Hi Hj). f_equal.
  apply cell_formula; [done |].
  apply (Forall_lookup_total_1 _ _ _ Hnz). lia.
Qed.

(** Row [i] of the matrix sums to one when row [i] of the counts sums to
    the out-degree. *)
Lemma transition_row_sum counts out_degree n T i trow :
  (0 < n)%nat → length out_degree = n → square n counts →
  Forall (λ d, (1 ≤ d)%Z) out_degree →
  Forall2 (λ crow d, isum crow = d) counts out_degree →
  square n T →
  (∀ i j, (i < n)%nat → (j < n)%nat →
          get T i j = Some (cell counts out_degree n i j)) →
  T !! i = Some trow → fsum trow = 1.
Proof.
  intros Hn Hlen Hsq Hge Hsum HsqT HT Htrow.
  assert (i < n)%nat as Hi by (rewrite <- (proj1 HsqT); by eapply lookup_lt_Some).
  destruct (square_lookup n counts i Hsq Hi) as (crow & Hcrow & Hcl).
  assert (out_degree !! i = Some (out_degree !!! i)) as Hod
    by (apply list_lookup_lookup_total_lt; lia).
  pose proof (Forall2_lookup_lr _ _ _ _ _ _ Hsum Hcrow Hod) as Hdeg.
  assert (float (out_degree !!! i) ≠ 0) as HD.
  { rewrite float_eq_0. pose proof (Forall_lookup_total_1 _ _ i Hge). lia. }
  assert (trow = map (λ c, f0_9 * float c / float (out_degree !!! i)
                           + f0_1 * 1 / float (Z.of_nat n)) crow) as ->.
  { apply list_eq. intros j. rewrite list_lookup_fmap.
    destruct (decide (j < n)%nat) as [Hj|Hj].
    - pose proof (HT i j Hi Hj) as Hget. unfold get in Hget.
      rewrite Htrow in Hget. simpl in Hget. rewrite Hget.
      destruct (lookup_lt_is_Some_2 crow j) as [c Hc]; [lia |].
      rewrite Hc. simpl. f_equal. unfold cell.
      by rewrite (get_entry 0%Z counts i j c) by (unfold get; by rewrite Hcrow).
    - rewrite (lookup_ge_None_2 crow j) by lia.
      apply lookup_ge_None_2.
      destruct (square_lookup n T i HsqT Hi) as (row' & Hrow' & Hl').
      rewrite Htrow in Hrow'. injection Hrow' as <-. lia. }
  rewrite (fsum_transition_row _ _ _ HD), Hdeg, Hcl.
  trans (f0_9 + f0_1); [| apply f0_9_plus_f0_1].
  field. split; [by apply float_nat_ne_0 | done].
Qed.

(** Every entry of the matrix is the value of its cell. *)
Lemma transition_entry counts out_degree n T i j trow p :
  square n T →
  (∀ i j, (i < n)%nat → (j < n)%nat →
          get T i j = Some (cell counts out_degree n i j)) →
  T !! i = Some trow → trow !! j = Some p →
  (i < n)%nat ∧ (j < n)%nat ∧ p = cell counts out_degree n i j.
Proof.
  intros HsqT HT Htrow Hp.
  assert (i < n)%nat as Hi by (rewrite <- (proj1 HsqT); by eapply lookup_lt_Some).
  assert (j < n)%nat as Hj.
  { destruct (square_lookup n T i HsqT Hi) as (row' & Hrow' & Hl').
    rewrite Htrow in Hrow'. injection Hrow' as <-.
    rewrite <- Hl'. by eapply lookup_lt_Some. }
  split; [done |]. split; [done |].
  pose proof (HT i j Hi Hj) as Hget. unfold get in Hget.
  rewrite Htrow in Hget. simpl in Hget. rewrite Hp in Hget.
  by injection Hget.
Qed.

(** On a valid input the result is a row-stochastic matrix: what
    [random_surfer] and [markov_mixing] expect. *)
Lemma compute_transition_row_stochastic counts out_degree n :
  (0 < n)%nat → length out_degree = n → square n counts →
  Forall (Forall (λ c, (0 ≤ c)%Z)) counts →
  Forall (λ d, (1 ≤ d)%Z) out_degree →
  Forall2 (λ crow d, isum crow = d) counts out_degree →
  ∃ T, compute_transition counts out_degree = Ok T ∧ row_stochastic n T.
Proof.
  intros Hn Hlen Hsq Hpos Hge Hsum.
  destruct (compute_transition_cells counts out_degree n Hlen Hsq
              (Forall_ge1_ne0 _ Hge)) as (T & E & HsqT & HT).
  exists T. split; [done |]. split; [done |].
  apply Forall_lookup. intros i trow Htrow. split.
  - apply Forall_lookup. intros j p Hp.
    destruct (transition_entry counts out_degree n T i j trow p)
      as (Hi & Hj & ->); [done .. |].
    apply Qclt_le_weak, cell_floor; [done | by apply entry_nonneg |].
    apply (Forall_lookup_total_1 _ _ i Hge). lia.
  - by apply (transition_row_sum counts out_degree n T i).
Qed.

(** C2. For [n > 0] and a valid input (non-negative counts, every
    out-degree at least 1 and equal to the sum of its row of counts), every
    row of the matrix returned by [compute_transition] sums to exactly 1
    over exact rational arithmetic. *)
Theorem compute_transition_rows_sum_to_1 counts out_degree n :
  (0 < n)%nat → length out_degree = n → square n counts →
  Forall (Forall (λ c, (0 ≤ c)%Z)) counts →
  Forall (λ d, (1 ≤ d)%Z) out_degree →
  Forall2 (λ crow d, isum crow = d) counts out_degree →
  ∃ T, compute_transition counts out_degree = Ok T
       ∧ square n T
       ∧ Forall (λ row, fsum row = 1) T.
Proof.
  intros Hn Hlen Hsq _ Hge Hsum.
  destruct (compute_transition_cells counts out_degree n Hlen Hsq
              (Forall_ge1_ne0 _ Hge)) as (T & E & HsqT & HT).
  exists T. split; [done |]. split; [done |].
  apply Forall_lookup. intros i trow Htrow.
  by apply (transition_row_sum counts out_degree n T i).
Qed.



(** ** make_one_move: the scan *)

Lemma cumulative_S row a p :
  row !! a = Some p → cumulative row a = fsum (take a row) + p.
Proof.
  intros Hp. unfold cumulative.
  rewrite (take_S_r _ _ _ Hp), fsum_app, fsum_cons, fsum_nil. ring.
Qed.

(** What the scan of columns [a, a+m) returns when it starts with the sum
    of the columns before [a]: the first column whose cumulative sum
    reaches [r], or [None] when no column does. *)
Lemma scan_spec tm page r row :
  tm !! page = Some row →
  ∀ m a, (a + m ≤ length row)%nat →
    match scan tm page r (seq a m) (fsum (take a row)) with
    | Ok (Some j) =>
        (a ≤ j < a + m)%nat ∧ r ≤ cumulative row j
        ∧ ∀ k, (a ≤ k < j)%nat → cumulative row k < r
    | Ok None => ∀ k, (a ≤ k < a + m)%nat → cumulative row k < r
    | Raise _ => False
    end.
Proof.
  intros Hrow. induction m as [|m IH]; intros a Hlen; simpl.
  - intros k Hk. lia.
  - rewrite (bind_Ok _ _ _ (getitem_Some _ _ _ Hrow)).
    destruct (lookup_lt_is_Some_2 row a) as [p Hp]; [lia |].
    rewrite (bind_Ok _ _ _ (getitem_Some _ _ _ Hp)).
    rewrite <- (cumulative_S row a p Hp).
    destruct (decide (r ≤ cumulative row a)) as [Hge|Hlt].
    + split; [lia |]. split; [done |]. intros k Hk. lia.
    + apply Qcnot_le_lt in Hlt.
      specialize (IH (S a) ltac:(lia)). fold (cumulative row a) in IH.
      destruct (scan tm page r (seq (S a) m) (cumulative row a))
        as [[j|]|e]; [| | done].
      * destruct IH as (Hj & Hreach & Hbelow).
        split; [lia |]. split; [done |].
        intros k Hk. destruct (decide (k = a)) as [->|Hne]; [done |].
        apply Hbelow. lia.
      * intros k Hk. destruct (decide (k = a)) as [->|Hne]; [done |].
        apply IH. lia.
Qed.

Lemma make_one_move_spec tm n page r row :
  square n tm → tm !! page = Some row →
  match make_one_move tm page r with
  | Ok (Some j) =>
      (j < n)%nat ∧ r ≤ cumulative row j
      ∧ ∀ k, (k < j)%nat → cumulative row k < r
  | Ok None => ∀ k, (k < n)%nat → cumulative row k < r
  | Raise _ => False
  end.
Proof.
  intros [Hlen Hrows] Hrow. unfold make_one_move. rewrite Hlen.
  pose proof (Forall_lookup_1 _ _ _ _ Hrows Hrow) as Hrowlen.
  simpl in Hrowlen.
  pose proof (scan_spec tm page r row Hrow n 0%nat ltac:(simpl; lia)) as Hscan.
  change (fsum (take 0 row)) with (Q2Qc 0) in Hscan.
  destruct (scan tm page r (seq 0 n) 0) as [[j|]|e]; [| | done].
  - destruct Hscan as (Hj & Hreach & Hbelow).
    split; [lia |]. split; [done |]. intros k Hk. apply Hbelow. lia.
  - intros k Hk. apply Hscan. lia.
Qed.

(** C4. On an [n]-by-[n] matrix, whenever some column [j < n] of the
    current row has a cumulative sum that reaches or exceeds the drawn
    value [r], [make_one_move] returns the smallest such column: inverse-CDF
    sampling with a left-to-right scan.  (Neither the sign of the entries
    nor the range of [r] plays a part.) *)
Theorem make_one_move_inverse_cdf tm n page r row :
  square n tm → tm !! page = Some row →
  (∃ j, (j < n)%nat ∧ r ≤ cumulative row j) →
  ∃ j, make_one_move tm page r = Ok (Some j)
       ∧ (j < n)%nat ∧ r ≤ cumulative row j
       ∧ ∀ k, (k < j)%nat → cumulative row k < r.
Proof.
  intros Hsq Hrow (j0 & Hj0 & Hreach).
  pose proof (make_one_move_spec tm n page r row Hsq Hrow) as Hspec.
  destruct (make_one_move tm page r) as [[j|]|e]; [| | done].
  - by exists j.
  - exfalso. by apply (Qclt_not_le _ _ (Hspec j0 Hj0)).
Qed.

(** When no column reaches [r] the scan falls off the end of the loop:
    the call returns [None], not the last column. *)
Lemma make_one_move_exhausted tm n page r row :
  square n tm → tm !! page = Some row →
  (∀ k, (k < n)%nat → cumulative row k < r) →
  make_one_move tm page r = Ok None.
Proof.
  intros Hsq Hrow Hbelow.
  pose proof (make_one_move_spec tm n page r row Hsq Hrow) as Hspec.
  destruct (make_one_move tm page r) as [[j|]|e]; [| done | done].
  destruct Hspec as (Hj & Hreach & _).
  exfalso. by apply (Qclt_not_le _ _ (Hbelow j Hj)).
Qed.

(** On a row that sums to one, a draw of at most one always finds its
    column. *)
Lemma make_one_move_stochastic tm n page r :
  row_stochastic n tm → (page < n)%nat → r ≤ 1 →
  ∃ j, make_one_move tm page r = Ok (Some j) ∧ (j < n)%nat.
Proof.
  intros [Hsq Hrows] Hpage Hr.
  destruct (square_lookup n tm page Hsq Hpage) as (row & Hrow & Hrowlen).
  destruct (make_one_move_inverse_cdf tm n page r row Hsq Hrow)
    as (j & E & Hj & _); [| by exists j].
  exists (n - 1)%nat. split; [lia |].
  unfold cumulative. replace (S (n - 1)) with n by lia.
  rewrite take_ge by lia.
  by rewrite (proj2 (Forall_lookup_1 _ _ _ _ Hrows Hrow)).
Qed.

(** ** random_surfer: the tally and the printed ranks *)

Lemma isum_replicate_0 n : isum (replicate n 0%Z) = 0%Z.
Proof.
  induction n as [|n IH]; [done |].
  cbn [replicate]. rewrite isum_cons, IH. lia.
Qed.

Lemma isum_insert (l : list Z) j c v :
  l !! j = Some c → isum (<[j:=v]> l) = (isum l - c + v)%Z.
Proof.
  revert j. induction l as [|x l IH]; intros j Hj; [done |].
  destruct j as [|j].
  - injection Hj as ->. simpl. rewrite !isum_cons. lia.
  - simpl in *. rewrite !isum_cons, (IH j Hj). lia.
Qed.

Lemma print_ranks_nonzero tv num_steps :
  num_steps ≠ 0%Z →
  ∀ out, print_ranks tv num_steps out
         = (out ++ map (λ count, float count / float num_steps) tv, None).
Proof.
  intros Hd. induction tv as [|count tv IH]; intros out; simpl.
  - by rewrite app_nil_r.
  - rewrite truediv_ne by (by rewrite float_eq_0).
    rewrite IH. by rewrite <- app_assoc.
Qed.

Lemma fsum_normalised (tv : list Z) (D : Qc) :
  fsum (map (λ count, float count / D) tv) = float (isum tv) / D.
Proof.
  induction tv as [|count tv IH].
  - cbn [map]. rewrite fsum_nil. change (isum []) with 0%Z.
    unfold float. rewrite Z2Qc_inj_0. unfold Qcdiv. ring.
  - cbn [map]. rewrite fsum_cons, isum_cons, IH.
    unfold float. rewrite Z2Qc_inj_add. unfold Qcdiv. ring.
Qed.

Section surfer.
Variables (transition_matrix : list (list Qc)) (n : nat).
Variable draws : nat → Qc.
Hypothesis Hstoch : row_stochastic n transition_matrix.
Hypothesis Hdraws : ∀ t, 0 ≤ draws t < 1.

Lemma surf_step_inv t st :
  walk_inv n t st →
  ∃ st', surf_step transition_matrix draws t st = Ok st'
         ∧ walk_inv n (S t) st'.
Proof.
  destruct st as [page tv]. intros (Hpage & Hlen & Hsum). simpl in *.
  destruct (make_one_move_stochastic transition_matrix n page (draws t))
    as (j & E & Hj); [done | done | apply Qclt_le_weak, Hdraws |].
  rewrite (bind_Ok _ _ _ E).
  destruct (lookup_lt_is_Some_2 tv j) as [count Hcount]; [lia |].
  rewrite (bind_Ok _ _ _ (getitem_Some _ _ _ Hcount)).
  rewrite (bind_Ok _ _ _ (setitem_lt tv j _ ltac:(lia))).
  eexists. split; [done |]. unfold walk_inv. simpl.
  split; [done |]. split; [by rewrite length_insert |].
  rewrite (isum_insert tv j count) by done. lia.
Qed.

Lemma surf_walk_tally num_steps :
  (1 ≤ n)%nat →
  ∃ st, surf_walk transition_matrix num_steps draws = Ok st
        ∧ walk_inv n (Z.to_nat num_steps) st.
Proof.
  intros Hn. unfold surf_walk.
  apply (for_range_inv (walk_inv n)).
  - unfold walk_inv. simpl. rewrite (proj1 (proj1 Hstoch)).
    split; [lia |]. split; [apply length_replicate |].
    apply isum_replicate_0.
  - intros k s _. apply surf_step_inv.
Qed.

End surfer.

(** The tally in the exact reading.  For a row-stochastic [n]-by-[n]
    matrix with [n >= 1], draws in [[0, 1)] and [num_steps > 0], the visit
    tally after the loop sums to exactly [num_steps], and the ranks
    printed from it (each tally divided by [num_steps]) sum to 1.  With
    exact sums every draw is reached on a row that sums to 1; the doubles
    of the code are treated in the part on the binary64 reading. *)
Theorem random_surfer_tally transition_matrix n num_steps draws :
  (1 ≤ n)%nat → row_stochastic n transition_matrix →
  (0 < num_steps)%Z → (∀ t, 0 ≤ draws t < 1) →
  ∃ page times_visited,
    surf_walk transition_matrix num_steps draws = Ok (page, times_visited)
    ∧ isum times_visited = num_steps
    ∧ ∃ rank,
        random_surfer transition_matrix num_steps draws = (rank, None)
        ∧ rank = map (λ count, float count / float num_steps) times_visited
        ∧ fsum rank = 1.
Proof.
  intros Hn Hstoch Hsteps Hdraws.
  destruct (surf_walk_tally transition_matrix n draws Hstoch Hdraws
              num_steps Hn) as ([page tv] & E & _ & Hlen & Hsum).
  simpl in Hlen, Hsum. rewrite Z2Nat.id in Hsum by lia.
  exists page, tv. split; [done |]. split; [done |].
  eexists. split; [| split; [reflexivity |]].
  - unfold random_surfer. rewrite E.
    by rewrite (print_ranks_nonzero tv num_steps ltac:(lia) []).
  - rewrite fsum_normalised, Hsum. apply Qcmult_inv_r.
    rewrite float_eq_0. lia.
Qed.

(** C10. On a non-empty matrix, [random_surfer] with [num_steps = 0] dies
    with a [ZeroDivisionError] at the first [count / num_steps], before
    anything is printed. *)
Theorem random_surfer_zero_steps transition_matrix draws :
  (1 ≤ length transition_matrix)%nat →
  random_surfer transition_matrix 0 draws = ([], Some ZeroDivisionError).
Proof.
  intros Hn. unfold random_surfer, surf_walk.
  change (Z.to_nat 0) with 0%nat. cbn [for_range seq for_in].
  destruct (length transition_matrix) as [|m]; [lia |].
  cbn [replicate print_ranks].
  by rewrite (truediv_0 _ (float 0) (proj2 (float_eq_0 _) eq_refl)).
Qed.

(** ** Finite sums *)

Lemma bigsum_ext n f g :
  (∀ i, (i < n)%nat → f i = g i) → bigsum n f = bigsum n g.
Proof.
  induction n as [|n IH]; intros Hfg; [done |]. simpl.
  rewrite IH, (Hfg n) by (intros; try apply Hfg; lia). done.
Qed.

Lemma bigsum_0 n : bigsum n (λ _, 0) = 0.
Proof. induction n as [|n IH]; [done |]. simpl. rewrite IH. ring. Qed.

Lemma bigsum_plus n f g :
  bigsum n (λ i, f i + g i) = bigsum n f + bigsum n g.
Proof. induction n as [|n IH]; simpl; [| rewrite IH]; ring. Qed.

Lemma bigsum_scale n c f : bigsum n (λ i, c * f i) = c * bigsum n f.
Proof. induction n as [|n IH]; simpl; [| rewrite IH]; ring. Qed.

Lemma bigsum_swap n m (f : nat → nat → Qc) :
  bigsum n (λ i, bigsum m (λ j, f i j)) = bigsum m (λ j, bigsum n (λ i, f i j)).
Proof.
  induction n as [|n IH]; simpl.
  - by rewrite bigsum_0.
  - by rewrite IH, bigsum_plus.
Qed.

Lemma fsum_map_seq n g : fsum (map g (seq 0 n)) = bigsum n g.
Proof.
  induction n as [|n IH]; [done |].
  rewrite seq_S, map_app, fsum_app, IH. simpl.
  rewrite fsum_cons, fsum_nil. ring.
Qed.

Lemma bigsum_lookup (row : list Qc) :
  bigsum (length row) (λ i, row !!! i) = fsum row.
Proof.
  induction row as [|x row IH] using rev_ind; [done |].
  rewrite length_app, Nat.add_1_r, fsum_app, fsum_cons, fsum_nil. simpl.
  rewrite <- IH. f_equal.
  - apply bigsum_ext. intros i Hi. by rewrite lookup_total_app_l.
  - rewrite lookup_total_app_r, Nat.sub_diag by done. simpl. ring.
Qed.

(** ** markov_mixing: one left-multiplication per iteration *)

Lemma length_left_mult m rank : length (left_mult m rank) = length m.
Proof. unfold left_mult. by rewrite length_map, length_seq. Qed.

Lemma length_unit0 n : length (unit0 n) = n.
Proof. destruct n; simpl; [done |]. by rewrite length_replicate. Qed.

Lemma length_mixing_spec m k : length (mixing_spec m k) = length m.
Proof.
  unfold mixing_spec. destruct k as [|k]; simpl.
  - apply length_unit0.
  - apply length_left_mult.
Qed.

Section mixing.
Variables (transition_matrix : list (list Qc)) (n : nat).
Variable rank : list Qc.
Hypothesis Hsq : square n transition_matrix.
Hypothesis Hrank : length rank = n.

Lemma mix_cell_Ok i j new_rank acc :
  (i < n)%nat → (j < n)%nat → new_rank !! i = Some acc →
  mix_cell transition_matrix rank i j new_rank
  = Ok (<[i:=acc + mix_term transition_matrix rank i j]> new_rank).
Proof.
  intros Hi Hj Hacc. unfold mix_cell, mix_term.
  rewrite (bind_Ok _ _ _ (getitem_Some _ _ _ Hacc)).
  assert (rank !! j = Some (rank !!! j)) as Hrj
    by (apply list_lookup_lookup_total_lt; lia).
  rewrite (bind_Ok _ _ _ (getitem_Some _ _ _ Hrj)).
  destruct (square_lookup n transition_matrix j Hsq Hj)
    as (row & Hrow & Hrowlen).
  rewrite (bind_Ok _ _ _ (getitem_Some _ _ _ Hrow)).
  destruct (lookup_lt_is_Some_2 row i) as [p Hp]; [lia |].
  rewrite (bind_Ok _ _ _ (getitem_Some _ _ _ Hp)).
  rewrite (get_entry 0 transition_matrix j i p)
    by (unfold get; by rewrite Hrow).
  apply setitem_lt. by eapply lookup_lt_Some.
Qed.

(** The loop over [j] accumulates the sum for [new_rank[i]]. *)
Lemma mix_row_loop i new_rank :
  (i < n)%nat → new_rank !! i = Some 0 →
  for_range n (λ j new_rank, mix_cell transition_matrix rank i j new_rank)
    new_rank
  = Ok (<[i:=bigsum n (mix_term transition_matrix rank i)]> new_rank).
Proof.
  intros Hi Hzero.
  assert (i < length new_rank)%nat as Hlt by (by eapply lookup_lt_Some).
  destruct (for_range_inv
              (λ k s, s = <[i:=bigsum k (mix_term transition_matrix rank i)]> new_rank)
              (λ j new_rank,
                 mix_cell transition_matrix rank i j new_rank)
              n new_rank) as (s & E & ->); [| | done].
  - simpl. symmetry. by apply list_insert_id.
  - intros k s Hk ->. eexists. split.
    + apply mix_cell_Ok; [done | done |]. by apply list_lookup_insert_eq.
    + by rewrite list_insert_insert_eq.
Qed.

Lemma mix_step_spec t :
  mix_step transition_matrix t rank = Ok (left_mult transition_matrix rank).
Proof.
  unfold mix_step. rewrite (proj1 Hsq).
  destruct (for_range_inv
    (λ k s, length s = n
            ∧ (∀ i, (i < k)%nat → s !! i = Some (bigsum n (mix_term transition_matrix rank i)))
            ∧ (∀ i, (k ≤ i < n)%nat → s !! i = Some 0))
    (λ i new_rank,
       for_range n
         (λ j new_rank, mix_cell transition_matrix rank i j new_rank)
         new_rank)
    n (replicate n 0)) as (s & E & Hlen & Hdone & _).
  - split; [apply length_replicate |]. split; [intros i Hi; lia |].
    intros i Hi. apply lookup_replicate_2. lia.
  - intros k s Hk (Hlen & Hdone & Hrest).
    eexists. split; [apply mix_row_loop; [done | apply Hrest; lia] |].
    split; [by rewrite length_insert |]. split.
    + intros i Hi. destruct (decide (i = k)) as [->|Hne].
      * apply list_lookup_insert_eq. lia.
      * rewrite list_lookup_insert_ne by done. apply Hdone. lia.
    + intros i Hi. rewrite list_lookup_insert_ne by lia. apply Hrest. lia.
  - rewrite E. f_equal. apply list_eq. intros i.
    unfold left_mult. rewrite (proj1 Hsq), list_lookup_fmap.
    destruct (decide (i < n)%nat) as [Hi|Hi].
    + rewrite (Hdone i Hi), lookup_seq_lt by done. done.
    + rewrite lookup_seq_ge by lia. apply lookup_ge_None_2. lia.
Qed.

(** Left-multiplication by a matrix whose rows sum to one keeps the
    sum of the vector. *)
Lemma fsum_left_mult :
  Forall (λ row, fsum row = 1) transition_matrix →
  fsum (left_mult transition_matrix rank) = fsum rank.
Proof.
  intros Hrows. unfold left_mult. rewrite (proj1 Hsq), fsum_map_seq.
  rewrite bigsum_swap.
  rewrite <- bigsum_lookup, Hrank.
  apply bigsum_ext. intros j Hj. unfold mix_term. rewrite bigsum_scale.
  destruct (square_lookup n transition_matrix j Hsq Hj)
    as (row & Hrow & Hrowlen).
  rewrite (bigsum_ext n _ (λ i, row !!! i)).
  - rewrite <- Hrowlen, bigsum_lookup.
    rewrite (Forall_lookup_1 _ _ _ _ Hrows Hrow). ring.
  - intros i Hi. unfold entry. rewrite Hrow. simpl.
    by rewrite list_lookup_total_alt.
Qed.

End mixing.

Lemma fsum_unit0 n : (1 ≤ n)%nat → fsum (unit0 n) = 1.
Proof.
  destruct n as [|m]; [lia |]. intros _. simpl. rewrite fsum_cons.
  assert (fsum (replicate m 0) = 0) as ->; [| ring].
  induction m as [|m IH]; [done |]. simpl. rewrite fsum_cons, IH. ring.
Qed.

Lemma mix_loop_spec transition_matrix n num_steps :
  square n transition_matrix → (1 ≤ n)%nat →
  mix_loop transition_matrix num_steps
  = Ok (mixing_spec transition_matrix (Z.to_nat num_steps)).
Proof.
  intros Hsq Hn. unfold mix_loop. rewrite (proj1 Hsq).
  assert (setitem (replicate n (0 : Qc)) 0 1 = Ok (unit0 n)) as Hinit.
  { rewrite setitem_lt by (rewrite length_replicate; lia).
    destruct n; [lia | done]. }
  rewrite (bind_Ok _ _ _ Hinit).
  destruct (for_range_inv
              (λ k s, s = mixing_spec transition_matrix k)
              (mix_step transition_matrix) (Z.to_nat num_steps) (unit0 n))
    as (s & E & ->); [| | done].
  - unfold mixing_spec. simpl. by rewrite (proj1 Hsq).
  - intros k s _ ->. eexists. split; [| reflexivity].
    apply (mix_step_spec transition_matrix n); [done |].
    by rewrite length_mixing_spec, (proj1 Hsq).
Qed.

Lemma fsum_mixing_spec transition_matrix n k :
  row_stochastic n transition_matrix → (1 ≤ n)%nat →
  fsum (mixing_spec transition_matrix k) = 1.
Proof.
  intros [Hsq Hrows] Hn. induction k as [|k IH].
  - unfold mixing_spec. simpl. rewrite (proj1 Hsq). by apply fsum_unit0.
  - change (mixing_spec transition_matrix (S k))
      with (left_mult transition_matrix (mixing_spec transition_matrix k)).
    rewrite (fsum_left_mult transition_matrix n); [done | done | |].
    + by rewrite length_mixing_spec, (proj1 Hsq).
    + eapply Forall_impl; [exact Hrows |]. by intros row [_ ?].
Qed.

(** C3. On a row-stochastic [n]-by-[n] matrix ([n >= 1], so that node 0
    exists) and for [num_steps >= 0], [markov_mixing] prints the vector
    obtained from [[1, 0, ..., 0]] by [num_steps] left-multiplications
    [new_rank[i] = Σ_j rank[j] * transition_matrix[j][i]]; with
    [num_steps = 0] that is [[1, 0, ..., 0]] itself. *)
Theorem markov_mixing_left_mult transition_matrix n num_steps :
  (1 ≤ n)%nat → row_stochastic n transition_matrix → (0 ≤ num_steps)%Z →
  markov_mixing transition_matrix num_steps
  = (mixing_spec transition_matrix (Z.to_nat num_steps), None)
  ∧ markov_mixing transition_matrix 0 = (1 :: replicate (n - 1) 0, None).
Proof.
  intros Hn [Hsq _] _. unfold markov_mixing.
  rewrite !(mix_loop_spec transition_matrix n _ Hsq Hn).
  split; [done |].
  change (Z.to_nat 0) with 0%nat. unfold mixing_spec. simpl.
  rewrite (proj1 Hsq). destruct n as [|m]; [lia |].
  simpl. by rewrite Nat.sub_0_r.
Qed.


(** ** The worked inputs *)

Lemma cycle3_square : square 3 cycle3_counts.
Proof. split; [done |]. by repeat constructor. Qed.

Lemma cycle3_matrix_stochastic : row_stochastic 3 cycle3_matrix.
Proof.
  unfold row_stochastic, square, cycle3_matrix.
  split; [split; [done |]; by repeat constructor |].
  repeat (apply Forall_cons; split; [split |]); try apply Forall_nil;
    try (by apply Qc_is_canon); by repeat constructor.
Qed.

Example compute_transition_cycle3 :
  compute_transition cycle3_counts cycle3_out_degree = Ok cycle3_matrix.
Proof. vm_compute. qc_lists. Qed.

Example markov_mixing_cycle3_one_step :
  markov_mixing cycle3_matrix 1
  = ([Q2Qc (1 # 30); Q2Qc (14 # 15); Q2Qc (1 # 30)], None).
Proof. vm_compute. qc_lists. Qed.

Example compute_transition_edge01 :
  compute_transition edge01_counts edge01_out_degree = Raise ZeroDivisionError.
Proof. reflexivity. Qed.

Example markov_mixing_empty : markov_mixing [] 0 = ([], Some IndexError).
Proof. reflexivity. Qed.

(** C5. The scan of [make_one_move] has no fallback: on a row whose
    cumulative sum never reaches the draw, the loop ends and the call
    returns [None] instead of the last column [n-1 = 2], and [random_surfer]
    dies with a [TypeError] at [times_visited[page]]. *)
Example make_one_move_falls_off_row :
  cumulative (replicate 3 (Q2Qc (3333 # 10000))) 2 < high_draw
  ∧ make_one_move truncated3_matrix 0 high_draw = Ok None
  ∧ make_one_move truncated3_matrix 0 high_draw ≠ Ok (Some 2%nat)
  ∧ random_surfer truncated3_matrix 1 (λ _, high_draw) = ([], Some TypeError).
Proof. split; [done |]. split; [done |]. split; done. Qed.

(** ** Witnesses *)

Lemma compute_transition_formula_witness :
  ∃ T, compute_transition cycle3_counts cycle3_out_degree = Ok T
       ∧ square 3 T
       ∧ ∀ i j, (i < 3)%nat → (j < 3)%nat →
           get T i j
           = Some (transition_formula cycle3_counts cycle3_out_degree 3 i j).
Proof.
  apply (compute_transition_formula cycle3_counts cycle3_out_degree 3);
    [lia | reflexivity | apply cycle3_square | by repeat constructor].
Defined.

Lemma compute_transition_rows_sum_to_1_witness :
  ∃ T, compute_transition cycle3_counts cycle3_out_degree = Ok T
       ∧ square 3 T
       ∧ Forall (λ row, fsum row = 1) T.
Proof.
  apply (compute_transition_rows_sum_to_1 cycle3_counts cycle3_out_degree 3);
    [lia | reflexivity | apply cycle3_square | | |];
    repeat constructor; (reflexivity || lia).
Defined.



Lemma make_one_move_inverse_cdf_witness :
  ∃ j, make_one_move cycle3_matrix 0 (Q2Qc (1 # 2)) = Ok (Some j)
       ∧ (j < 3)%nat
       ∧ Q2Qc (1 # 2) ≤ cumulative [Q2Qc (1 # 30); Q2Qc (14 # 15); Q2Qc (1 # 30)] j
       ∧ ∀ k, (k < j)%nat →
           cumulative [Q2Qc (1 # 30); Q2Qc (14 # 15); Q2Qc (1 # 30)] k
           < Q2Qc (1 # 2).
Proof.
  apply (make_one_move_inverse_cdf cycle3_matrix 3 0 (Q2Qc (1 # 2)));
    [apply cycle3_matrix_stochastic | reflexivity |].
  exists 1%nat. split; [lia | by vm_compute].
Defined.

Lemma random_surfer_tally_witness :
  ∃ page times_visited,
    surf_walk cycle3_matrix 3 half_draws = Ok (page, times_visited)
    ∧ isum times_visited = 3%Z
    ∧ ∃ rank,
        random_surfer cycle3_matrix 3 half_draws = (rank, None)
        ∧ rank = map (λ count, float count / float 3) times_visited
        ∧ fsum rank = 1.
Proof.
  apply (random_surfer_tally cycle3_matrix 3 3 half_draws);
    [lia | apply cycle3_matrix_stochastic | lia |].
  intros t. split; by vm_compute.
Defined.

Lemma random_surfer_zero_steps_witness :
  random_surfer cycle3_matrix 0 half_draws = ([], Some ZeroDivisionError).
Proof. apply (random_surfer_zero_steps cycle3_matrix half_draws). simpl. lia. Defined.

Lemma markov_mixing_left_mult_witness :
  markov_mixing cycle3_matrix 2
  = (mixing_spec cycle3_matrix (Z.to_nat 2), None)
  ∧ markov_mixing cycle3_matrix 0 = (1 :: replicate (3 - 1) 0, None).
Proof.
  apply (markov_mixing_left_mult cycle3_matrix 3 2);
    [lia | apply cycle3_matrix_stochastic | lia].
Defined.


(** * Beyond the transition model: the loader and the program *)

(** ** Python indices *)

Lemma index_wrap n z :
  (- Z.of_nat n ≤ z < Z.of_nat n)%Z →
  index n z = Ok (wrap n z) ∧ (wrap n z < n)%nat.
Proof.
  intros Hz. unfold index, wrap.
  destruct (decide (0 ≤ z)%Z) as [Hpos|Hneg].
  - rewrite decide_True by lia. split; [done | lia].
  - rewrite decide_False by lia. rewrite decide_True by lia.
    split; [done | lia].
Qed.

Lemma index_outside n z :
  ¬ (- Z.of_nat n ≤ z < Z.of_nat n)%Z → index n z = Raise IndexError.
Proof.
  intros Hz. unfold index.
  rewrite decide_False by lia. by rewrite decide_False by lia.
Qed.

Lemma index_Ok n z k :
  index n z = Ok k → (- Z.of_nat n ≤ z < Z.of_nat n)%Z ∧ k = wrap n z.
Proof.
  intros Hk.
  destruct (decide (- Z.of_nat n ≤ z < Z.of_nat n)%Z) as [Hz|Hz].
  - destruct (index_wrap n z Hz) as [E _]. rewrite E in Hk.
    by injection Hk as <-.
  - by rewrite (index_outside n z Hz) in Hk.
Qed.

(** ** The empty graph on [n] nodes *)

Lemma zero_rows_loop {A} (row : list A) n :
  for_range n (λ (i : nat) (m : list (list A)), Ok (m ++ [row])) []
  = Ok (replicate n row).
Proof.
  destruct (for_range_inv
              (λ k (m : list (list A)), m = replicate k row)
              (λ i m, Ok (m ++ [row])) n [])
    as (m & E & ->); [done | | done].
  intros k s _ ->. eexists. split; [done |]. by rewrite replicate_S_end.
Qed.

Lemma graph_inv_empty n :
  graph_inv n (replicate n (replicate n 0%Z), replicate n 0%Z).
Proof.
  unfold graph_inv. simpl.
  split; [split; [apply length_replicate |];
          apply Forall_replicate, length_replicate |].
  split; [apply length_replicate |].
  split; [by apply Forall_replicate, Forall_replicate |].
  split; [by apply Forall_replicate |].
  apply Forall2_replicate. apply isum_replicate_0.
Qed.

(** ** Adding one link *)

Lemma entry_get {A} (d : A) m i j : entry d m i j = default d (get m i j).
Proof. done. Qed.

(** With both node numbers valid, the link is counted in its cell and in
    the out-degree of its source. *)
Lemma add_edge_Ok n u v counts out_degree :
  graph_inv n (counts, out_degree) →
  (- Z.of_nat n ≤ u < Z.of_nat n)%Z → (- Z.of_nat n ≤ v < Z.of_nat n)%Z →
  ∃ row c d,
    counts !! wrap n u = Some row ∧ row !! wrap n v = Some c
    ∧ out_degree !! wrap n u = Some d
    ∧ add_edge u v (counts, out_degree)
      = Ok (<[wrap n u:=<[wrap n v:=(c + 1)%Z]> row]> counts,
            <[wrap n u:=(d + 1)%Z]> out_degree).
Proof.
  intros (Hsq & Hlen & _) Hu Hv. simpl in Hsq, Hlen.
  destruct (index_wrap n u Hu) as [Eu Hiu].
  destruct (index_wrap n v Hv) as [Ev Hiv].
  destruct (square_lookup n counts (wrap n u) Hsq Hiu) as (row & Hrow & Hrl).
  destruct (lookup_lt_is_Some_2 row (wrap n v)) as [c Hc]; [lia |].
  destruct (lookup_lt_is_Some_2 out_degree (wrap n u)) as [d Hd]; [lia |].
  exists row, c, d. split; [done |]. split; [done |]. split; [done |].
  unfold add_edge. rewrite Hlen, (proj1 Hsq).
  rewrite (bind_Ok _ _ _ Eu).
  rewrite (bind_Ok _ _ _ (getitem_Some _ _ _ Hd)).
  rewrite (bind_Ok _ _ _ (setitem_lt out_degree (wrap n u) _ ltac:(lia))).
  rewrite (bind_Ok _ _ _ Eu).
  rewrite (bind_Ok _ _ _ (getitem_Some _ _ _ Hrow)).
  rewrite Hrl, (bind_Ok _ _ _ Ev).
  rewrite (bind_Ok _ _ _ (getitem_Some _ _ _ Hc)).
  by rewrite (bind_Ok _ _ _ (setitem_lt row (wrap n v) _ ltac:(lia))).
Qed.

(** A node number outside [[-n, n)] is an [IndexError]. *)
Lemma add_edge_outside n u v counts out_degree :
  graph_inv n (counts, out_degree) →
  ¬ ((- Z.of_nat n ≤ u < Z.of_nat n)%Z ∧ (- Z.of_nat n ≤ v < Z.of_nat n)%Z) →
  add_edge u v (counts, out_degree) = Raise IndexError.
Proof.
  intros (Hsq & Hlen & _) Hout. simpl in Hsq, Hlen.
  unfold add_edge. rewrite Hlen, (proj1 Hsq).
  destruct (decide (- Z.of_nat n ≤ u < Z.of_nat n)%Z) as [Hu|Hu].
  - destruct (index_wrap n u Hu) as [Eu Hiu].
    destruct (square_lookup n counts (wrap n u) Hsq Hiu) as (row & Hrow & Hrl).
    destruct (lookup_lt_is_Some_2 out_degree (wrap n u)) as [d Hd]; [lia |].
    rewrite (bind_Ok _ _ _ Eu).
    rewrite (bind_Ok _ _ _ (getitem_Some _ _ _ Hd)).
    rewrite (bind_Ok _ _ _ (setitem_lt out_degree (wrap n u) _ ltac:(lia))).
    rewrite (bind_Ok _ _ _ Eu).
    rewrite (bind_Ok _ _ _ (getitem_Some _ _ _ Hrow)).
    rewrite Hrl. by rewrite (bind_Raise _ _ _ (index_outside n v ltac:(tauto))).
  - by rewrite (bind_Raise _ _ _ (index_outside n u Hu)).
Qed.

Lemma graph_inv_add n u v counts out_degree row c d :
  graph_inv n (counts, out_degree) →
  (wrap n u < n)%nat → (wrap n v < n)%nat →
  counts !! wrap n u = Some row → row !! wrap n v = Some c →
  out_degree !! wrap n u = Some d →
  graph_inv n (<[wrap n u:=<[wrap n v:=(c + 1)%Z]> row]> counts,
               <[wrap n u:=(d + 1)%Z]> out_degree).
Proof.
  intros (Hsq & Hlen & Hcpos & Hdpos & Hsum) Hiu Hiv Hrow Hc Hd.
  simpl in *.
  pose proof (Forall_lookup_1 _ _ _ _ Hcpos Hrow) as Hrowpos.
  pose proof (Forall_lookup_1 _ _ _ _ Hrowpos Hc) as Hcnn.
  pose proof (Forall_lookup_1 _ _ _ _ Hdpos Hd) as Hdnn.
  pose proof (Forall2_lookup_lr _ _ _ _ _ _ Hsum Hrow Hd) as Hrowsum.
  simpl in Hcnn, Hdnn, Hrowsum.
  unfold graph_inv. simpl. split; [| split; [| split; [| split]]].
  - apply square_insert; [done |]. rewrite length_insert.
    destruct (square_lookup n counts _ Hsq Hiu) as (row' & Hrow' & Hl).
    rewrite Hrow in Hrow'. by injection Hrow' as <-.
  - by rewrite length_insert.
  - apply Forall_insert; [done |]. apply Forall_insert; [done | lia].
  - apply Forall_insert; [done | lia].
  - apply Forall2_insert; [done |].
    rewrite (isum_insert row _ c) by done. lia.
Qed.


Lemma entry_add_link (counts : list (list Z)) iu iv row c i j :
  counts !! iu = Some row → row !! iv = Some c →
  entry 0%Z (<[iu:=<[iv:=(c + 1)%Z]> row]> counts) i j
  = (entry 0%Z counts i j
     + (if bool_decide (iu = i ∧ iv = j) then 1 else 0))%Z.
Proof.
  intros Hrow Hc. rewrite !entry_get.
  rewrite (get_insert counts iu iv row) by (done || by eapply lookup_lt_Some).
  destruct (decide (i = iu ∧ j = iv)) as [[-> ->]|Hne].
  - rewrite bool_decide_true by done.
    unfold get. rewrite Hrow. simpl. by rewrite Hc.
  - rewrite bool_decide_false by (intros [<- <-]; tauto). lia.
Qed.

Lemma lookup_total_add_link (out_degree : list Z) iu d i :
  out_degree !! iu = Some d →
  <[iu:=(d + 1)%Z]> out_degree !!! i
  = (out_degree !!! i + (if bool_decide (iu = i) then 1 else 0))%Z.
Proof.
  intros Hd. destruct (decide (iu = i)) as [->|Hne].
  - rewrite bool_decide_true by done.
    rewrite list_lookup_total_insert_eq by (by eapply lookup_lt_Some).
    by rewrite (list_lookup_total_correct _ _ _ Hd).
  - rewrite bool_decide_false by done.
    rewrite list_lookup_total_insert_ne by done. lia.
Qed.

(** ** The loop over the tokens *)

Lemma pair_ind {A} (P : list A → Prop) :
  P [] → (∀ a, P [a]) → (∀ a b l, P l → P (a :: b :: l)) → ∀ l, P l.
Proof.
  intros Hnil Hone Hstep l.
  assert (P l ∧ ∀ a, P (a :: l)) as [? _]; [| done].
  induction l as [|b l [IH1 IH2]]; [by split |].
  split; [apply IH2 |]. intros a. by apply Hstep.
Qed.

Lemma edge_loop_pair int tu tv rest g u v :
  int tu = Some u → int tv = Some v →
  edge_loop int (tu :: tv :: rest) g
  = lift (add_edge u v g) ≫= edge_loop int rest.
Proof. intros Hu Hv. simpl. unfold parse. by rewrite Hu, Hv. Qed.

Lemma edge_loop_pair_Return int tu tv rest g g' :
  edge_loop int (tu :: tv :: rest) g = Return g' →
  ∃ u v g1, int tu = Some u ∧ int tv = Some v
            ∧ add_edge u v g = Ok g1 ∧ edge_loop int rest g1 = Return g'.
Proof.
  simpl. unfold parse.
  destruct (int tu) as [u|]; [simpl | done].
  destruct (int tv) as [v|]; [simpl | done].
  destruct (add_edge u v g) as [g1|e] eqn:Hadd; [simpl | done].
  intros Hrest. exists u, v, g1. split; [done |]. split; [done |].
  split; [done |]. exact Hrest.
Qed.

(** One link added to a graph on [n] nodes: the numbers were valid, the
    invariant is kept, and exactly one cell and one out-degree grew. *)
Lemma add_edge_inv n u v g g1 :
  graph_inv n g → add_edge u v g = Ok g1 →
  (- Z.of_nat n ≤ u < Z.of_nat n)%Z ∧ (- Z.of_nat n ≤ v < Z.of_nat n)%Z
  ∧ graph_inv n g1
  ∧ (∀ i j, entry 0%Z g1.1 i j
            = (entry 0%Z g.1 i j
               + (if bool_decide (wrap n u = i ∧ wrap n v = j)
                  then 1 else 0))%Z)
  ∧ (∀ i, g1.2 !!! i
          = (g.2 !!! i + (if bool_decide (wrap n u = i) then 1 else 0))%Z)
  ∧ isum g1.2 = (isum g.2 + 1)%Z.
Proof.
  destruct g as [counts out_degree]. intros Hinv Hadd.
  destruct (decide ((- Z.of_nat n ≤ u < Z.of_nat n)%Z
                    ∧ (- Z.of_nat n ≤ v < Z.of_nat n)%Z)) as [[Hu Hv]|Hout].
  - destruct (add_edge_Ok n u v counts out_degree Hinv Hu Hv)
      as (row & c & d & Hrow & Hc & Hd & E).
    rewrite E in Hadd. injection Hadd as <-.
    split; [done |]. split; [done |]. simpl.
    split; [| split; [| split]].
    + apply graph_inv_add; try done.
      * by apply index_wrap.
      * by apply index_wrap.
    + intros i j. by apply entry_add_link.
    + intros i. by apply lookup_total_add_link.
    + rewrite (isum_insert out_degree _ d) by done. lia.
  - by rewrite (add_edge_outside n u v counts out_degree Hinv Hout) in Hadd.
Qed.

(** What a completed loop did to the graph. *)
Lemma edge_loop_inv int n tokens :
  ∀ g g', graph_inv n g → edge_loop int tokens g = Return g' →
    graph_inv n g'
    ∧ Nat.even (length tokens) = true
    ∧ Forall (node_token int n) tokens
    ∧ (∀ i j, entry 0%Z g'.1 i j
              = (entry 0%Z g.1 i j
                 + link_count n (edge_list int tokens) i j)%Z)
    ∧ (∀ i, g'.2 !!! i
            = (g.2 !!! i + out_count n (edge_list int tokens) i)%Z)
    ∧ (2 * isum g'.2 = 2 * isum g.2 + Z.of_nat (length tokens))%Z.
Proof.
  induction tokens as [|tu|tu tv rest IH] using pair_ind; intros g g' Hinv Hrun.
  - injection Hrun as <-. simpl.
    split; [done |]. split; [done |]. split; [done |].
    split; [intros; lia |]. split; [intros; lia | lia].
  - simpl in Hrun. unfold parse in Hrun. by destruct (int tu).
  - destruct (edge_loop_pair_Return int tu tv rest g g' Hrun)
      as (u & v & g1 & Hu & Hv & Hadd & Hrest).
    destruct (add_edge_inv n u v g g1 Hinv Hadd)
      as (Hur & Hvr & Hinv1 & Hcell & Hdeg & Htot).
    destruct (IH g1 g' Hinv1 Hrest)
      as (Hinv' & Heven & Hnodes & Hcells & Hdegs & Htots).
    split; [done |]. split; [done |].
    split; [repeat constructor; [by exists u | by exists v | done] |].
    cbn [edge_list]. rewrite Hu, Hv. cbn [link_count out_count].
    split; [| split].
    + intros i j. rewrite Hcells, Hcell. lia.
    + intros i. rewrite Hdegs, Hdeg. lia.
    + cbn [length]. lia.
Qed.

(** An even list of valid node tokens is read to the end. *)
Lemma edge_loop_Return int n tokens :
  ∀ g, graph_inv n g → Nat.even (length tokens) = true →
    Forall (node_token int n) tokens →
    ∃ g', edge_loop int tokens g = Return g'.
Proof.
  induction tokens as [|tu|tu tv rest IH] using pair_ind;
    intros g Hinv Heven Hnodes.
  - by exists g.
  - done.
  - apply Forall_cons in Hnodes as [(u & Hu & Hur) Hnodes].
    apply Forall_cons in Hnodes as [(v & Hv & Hvr) Hnodes].
    destruct g as [counts out_degree].
    destruct (add_edge_Ok n u v counts out_degree Hinv Hur Hvr)
      as (row & c & d & Hrow & Hc & Hd & E).
    rewrite (edge_loop_pair int tu tv rest _ u v Hu Hv), E. simpl.
    apply IH; [| done | done].
    apply graph_inv_add; try done; by apply index_wrap.
Qed.

(** An even list of tokens that all convert, one of them to a number
    outside [[-n, n)], ends in an [IndexError]. *)
Lemma edge_loop_IndexError int n tokens :
  ∀ g, graph_inv n g → Nat.even (length tokens) = true →
    Forall (λ token, is_Some (int token)) tokens →
    ¬ Forall (node_token int n) tokens →
    edge_loop int tokens g = Fail (Builtin IndexError).
Proof.
  induction tokens as [|tu|tu tv rest IH] using pair_ind;
    intros g Hinv Heven Hconv Hbad.
  - by destruct Hbad.
  - done.
  - apply Forall_cons in Hconv as [[u Hu] Hconv].
    apply Forall_cons in Hconv as [[v Hv] Hconv].
    rewrite (edge_loop_pair int tu tv rest _ u v Hu Hv).
    destruct (add_edge u v g) as [g1|e] eqn:Hadd.
    + destruct (add_edge_inv n u v g g1 Hinv Hadd)
        as (Hur & Hvr & Hinv1 & _).
      simpl. apply IH; [done | done | done |].
      intros Hrest. apply Hbad.
      repeat constructor; [by exists u | by exists v | done].
    + destruct g as [counts out_degree].
      destruct (decide ((- Z.of_nat n ≤ u < Z.of_nat n)%Z
                        ∧ (- Z.of_nat n ≤ v < Z.of_nat n)%Z))
        as [[Hur Hvr]|Hout].
      * destruct (add_edge_Ok n u v counts out_degree Hinv Hur Hvr)
          as (row & c & d & _ & _ & _ & E).
        by rewrite E in Hadd.
      * rewrite (add_edge_outside n u v counts out_degree Hinv Hout) in Hadd.
        by injection Hadd as <-.
Qed.


(** ** read_graph *)

Lemma entry_zero n i j : entry 0%Z (replicate n (replicate n 0%Z)) i j = 0%Z.
Proof.
  unfold entry.
  destruct (replicate n (replicate n 0%Z) !! i) as [row|] eqn:Hrow; [| done].
  apply lookup_replicate in Hrow as [-> _]. simpl.
  destruct (replicate n 0%Z !! j) as [c|] eqn:Hc; [| done].
  by apply lookup_replicate in Hc as [-> _].
Qed.

Lemma lookup_total_zero n i : (i < n)%nat → replicate n 0%Z !!! i = 0%Z.
Proof. intros Hi. by apply lookup_total_replicate_2. Qed.

Lemma build_graph_unfold int n tokens :
  build_graph int n tokens
  = if Nat.even (length tokens)
    then edge_loop int tokens
           (replicate (Z.to_nat n) (replicate (Z.to_nat n) 0%Z),
            replicate (Z.to_nat n) 0%Z)
    else Fail AssertionError.
Proof. unfold build_graph. by rewrite zero_rows_loop. Qed.

(** A call that returns a graph printed nothing and read a file whose
    first line converts. *)
Lemma read_graph_Return int fs filename out g :
  read_graph int fs filename = (out, Return g) →
  out = [] ∧ ∃ line n tokens,
    fs filename = Opened (Some line) (Some tokens)
    ∧ int line = Some n ∧ build_graph int n tokens = Return g.
Proof.
  unfold read_graph.
  destruct (fs filename) as [|[line|] read] eqn:Hfs; [done | | done].
  destruct (int line) as [n|] eqn:Hn; [| done].
  destruct read as [tokens|]; [| done].
  intros [= <- Hg]. split; [done |]. by exists line, n, tokens.
Qed.

Lemma read_graph_Opened int fs filename line n tokens :
  fs filename = Opened (Some line) (Some tokens) → int line = Some n →
  read_graph int fs filename = ([], build_graph int n tokens).
Proof. intros Hfs Hn. unfold read_graph. by rewrite Hfs, Hn. Qed.

Lemma build_graph_inv int n tokens g :
  build_graph int n tokens = Return g →
  graph_inv (Z.to_nat n) g
  ∧ Nat.even (length tokens) = true
  ∧ Forall (node_token int (Z.to_nat n)) tokens
  ∧ (∀ i j, entry 0%Z g.1 i j
            = link_count (Z.to_nat n) (edge_list int tokens) i j)
  ∧ (∀ i, (i < Z.to_nat n)%nat →
          g.2 !!! i = out_count (Z.to_nat n) (edge_list int tokens) i)
  ∧ (2 * isum g.2 = Z.of_nat (length tokens))%Z.
Proof.
  rewrite build_graph_unfold.
  destruct (Nat.even (length tokens)); [| done]. intros Hrun.
  destruct (edge_loop_inv int (Z.to_nat n) tokens _ g
              (graph_inv_empty (Z.to_nat n)) Hrun)
    as (Hinv & Heven & Hnodes & Hcells & Hdegs & Htot).
  simpl in Hcells, Hdegs, Htot.
  split; [done |]. split; [done |]. split; [done |].
  split; [| split].
  - intros i j. rewrite Hcells, entry_zero. lia.
  - intros i Hi. rewrite Hdegs, lookup_total_zero by done. lia.
  - rewrite Htot, isum_replicate_0. lia.
Qed.

(** X1. A graph returned by [read_graph] is well formed: nothing was
    printed, [counts] is [n]-by-[n] and [out_degree] has length [n] for the
    node count [n] of the first line, no entry is negative, every
    out-degree is the sum of its row of counts, and the out-degrees sum to
    the number of pairs of tokens. *)
Theorem read_graph_consistent int fs filename out counts out_degree :
  read_graph int fs filename = (out, Return (counts, out_degree)) →
  out = []
  ∧ ∃ line n tokens,
      fs filename = Opened (Some line) (Some tokens) ∧ int line = Some n
      ∧ square (Z.to_nat n) counts
      ∧ length out_degree = Z.to_nat n
      ∧ Forall (Forall (λ c, (0 ≤ c)%Z)) counts
      ∧ Forall (λ d, (0 ≤ d)%Z) out_degree
      ∧ Forall2 (λ crow d, isum crow = d) counts out_degree
      ∧ (2 * isum out_degree = Z.of_nat (length tokens))%Z.
Proof.
  intros Hrun.
  destruct (read_graph_Return int fs filename out _ Hrun)
    as (-> & line & n & tokens & Hfs & Hn & Hbuild).
  split; [done |]. exists line, n, tokens.
  destruct (build_graph_inv int n tokens _ Hbuild)
    as ((Hsq & Hlen & Hcpos & Hdpos & Hsum) & _ & _ & _ & _ & Htot).
  simpl in *. do 7 (split; [done |]). done.
Qed.

(** X2. In a graph returned by [read_graph], [counts[i][j]] is the number
    of pairs of the file that link node [i] to node [j], and
    [out_degree[i]] the number of pairs that leave node [i]; a negative
    node number [-k] stands for node [n-k]. *)
Theorem read_graph_counts_links int fs filename line n tokens
    counts out_degree :
  fs filename = Opened (Some line) (Some tokens) → int line = Some n →
  read_graph int fs filename = ([], Return (counts, out_degree)) →
  ∀ i j, (i < Z.to_nat n)%nat →
    entry 0%Z counts i j
    = link_count (Z.to_nat n) (edge_list int tokens) i j
    ∧ out_degree !!! i = out_count (Z.to_nat n) (edge_list int tokens) i.
Proof.
  intros Hfs Hn Hrun i j Hi.
  rewrite (read_graph_Opened int fs filename line n tokens Hfs Hn) in Hrun.
  injection Hrun as Hbuild.
  destruct (build_graph_inv int n tokens _ Hbuild)
    as (_ & _ & _ & Hcells & Hdegs & _).
  split; [apply Hcells | by apply Hdegs].
Qed.

(** X3. A file that opens and reads, whose first line converts to [n] and
    whose tokens are an even number of node numbers in [[-n, n)], is read
    to a graph without printing anything. *)
Theorem read_graph_well_formed int fs filename line n tokens :
  fs filename = Opened (Some line) (Some tokens) → int line = Some n →
  Nat.even (length tokens) = true →
  Forall (node_token int (Z.to_nat n)) tokens →
  ∃ counts out_degree,
    read_graph int fs filename = ([], Return (counts, out_degree)).
Proof.
  intros Hfs Hn Heven Hnodes.
  rewrite (read_graph_Opened int fs filename line n tokens Hfs Hn).
  rewrite build_graph_unfold, Heven.
  destruct (edge_loop_Return int (Z.to_nat n) tokens _
              (graph_inv_empty (Z.to_nat n)) Heven Hnodes)
    as ([counts out_degree] & ->).
  by exists counts, out_degree.
Qed.

(** X4. An odd number of tokens ends [read_graph] in the uncaught
    [AssertionError], whatever the tokens are; no message is printed. *)
Theorem read_graph_odd_tokens int fs filename line n tokens :
  fs filename = Opened (Some line) (Some tokens) → int line = Some n →
  Nat.odd (length tokens) = true →
  read_graph int fs filename = ([], Fail AssertionError).
Proof.
  intros Hfs Hn Hodd.
  rewrite (read_graph_Opened int fs filename line n tokens Hfs Hn).
  rewrite build_graph_unfold.
  rewrite <- Nat.negb_odd, Hodd. done.
Qed.

(** X5. With an even number of tokens that all convert, a node number
    outside [[-n, n)] ends [read_graph] in an uncaught [IndexError]. *)
Theorem read_graph_node_out_of_range int fs filename line n tokens :
  fs filename = Opened (Some line) (Some tokens) → int line = Some n →
  Nat.even (length tokens) = true →
  Forall (λ token, is_Some (int token)) tokens →
  ¬ Forall (node_token int (Z.to_nat n)) tokens →
  read_graph int fs filename = ([], Fail (Builtin IndexError)).
Proof.
  intros Hfs Hn Heven Hconv Hbad.
  rewrite (read_graph_Opened int fs filename line n tokens Hfs Hn).
  rewrite build_graph_unfold, Heven. f_equal.
  apply (edge_loop_IndexError int (Z.to_nat n)); [| done | done | done].
  apply graph_inv_empty.
Qed.


Lemma wrap_wrap n z :
  (- Z.of_nat n ≤ z < Z.of_nat n)%Z →
  (- Z.of_nat n ≤ Z.of_nat (wrap n z) < Z.of_nat n)%Z
  ∧ wrap n (Z.of_nat (wrap n z)) = wrap n z.
Proof.
  intros Hz. pose proof (proj2 (index_wrap n z Hz)) as Hlt.
  split; [lia |]. unfold wrap at 1. rewrite decide_True by lia. lia.
Qed.

Lemma add_edge_wrapped n u v g :
  graph_inv n g →
  (- Z.of_nat n ≤ u < Z.of_nat n)%Z → (- Z.of_nat n ≤ v < Z.of_nat n)%Z →
  add_edge (Z.of_nat (wrap n u)) (Z.of_nat (wrap n v)) g = add_edge u v g.
Proof.
  destruct g as [counts out_degree]. intros Hinv Hu Hv.
  destruct (wrap_wrap n u Hu) as [Hu' Eu].
  destruct (wrap_wrap n v Hv) as [Hv' Ev].
  destruct (add_edge_Ok n u v counts out_degree Hinv Hu Hv)
    as (row & c & d & Hrow & Hc & Hd & ->).
  destruct (add_edge_Ok n _ _ counts out_degree Hinv Hu' Hv')
    as (row' & c' & d' & Hrow' & Hc' & Hd' & ->).
  rewrite Eu in Hrow', Hd' |- *. rewrite Ev in Hc' |- *.
  rewrite Hrow in Hrow'. injection Hrow' as <-.
  rewrite Hc in Hc'. injection Hc' as <-.
  rewrite Hd in Hd'. by injection Hd' as <-.
Qed.

Lemma edge_loop_wrapped int n tokens1 :
  ∀ tokens2 g, graph_inv n g →
    Forall2 (unwrapped int n) tokens1 tokens2 →
    edge_loop int tokens1 g = edge_loop int tokens2 g.
Proof.
  induction tokens1 as [|tu|tu tv rest IH] using pair_ind;
    intros tokens2 g Hinv Hsame.
  - by apply Forall2_nil_inv_l in Hsame as ->.
  - apply Forall2_cons_inv_l in Hsame
      as (tu' & rest' & (u & Hu & Hur & Hu') & Hrest & ->).
    apply Forall2_nil_inv_l in Hrest as ->.
    simpl. unfold parse. by rewrite Hu, Hu'.
  - apply Forall2_cons_inv_l in Hsame
      as (tu' & rest1 & (u & Hu & Hur & Hu') & Hrest & ->).
    apply Forall2_cons_inv_l in Hrest
      as (tv' & rest' & (v & Hv & Hvr & Hv') & Hrest & ->).
    rewrite (edge_loop_pair int tu tv rest g u v Hu Hv).
    rewrite (edge_loop_pair int tu' tv' rest' g _ _ Hu' Hv').
    rewrite (add_edge_wrapped n u v g Hinv Hur Hvr).
    destruct (add_edge u v g) as [g1|e] eqn:Hadd; [simpl | done].
    apply IH; [| done].
    by destruct (add_edge_inv n u v g g1 Hinv Hadd) as (_ & _ & ? & _).
Qed.

(** X6. Negative node numbers are accepted and count from the end:
    writing every node number [z] of a file as the number in [[0, n)] it
    stands for ([z + n] when [z] is negative) gives a file that
    [read_graph] reads to the same result. *)
Theorem read_graph_negative_nodes int fs file1 file2 line1 line2 n
    tokens1 tokens2 :
  fs file1 = Opened (Some line1) (Some tokens1) → int line1 = Some n →
  fs file2 = Opened (Some line2) (Some tokens2) → int line2 = Some n →
  Forall2 (unwrapped int (Z.to_nat n)) tokens1 tokens2 →
  read_graph int fs file1 = read_graph int fs file2.
Proof.
  intros Hfs1 Hn1 Hfs2 Hn2 Hsame.
  rewrite (read_graph_Opened int fs file1 line1 n tokens1 Hfs1 Hn1).
  rewrite (read_graph_Opened int fs file2 line2 n tokens2 Hfs2 Hn2).
  rewrite !build_graph_unfold, (Forall2_length _ _ _ Hsame). f_equal.
  destruct (Nat.even (length tokens2)); [| done].
  apply (edge_loop_wrapped int (Z.to_nat n)); [| done].
  apply graph_inv_empty.
Qed.


(** ** More on loops *)

(** Two bodies that agree on the indices of a loop give the same loop. *)
Lemma for_in_ext {St} (body1 body2 : nat → St → result St) js :
  (∀ j s, j ∈ js → body1 j s = body2 j s) →
  ∀ s, for_in js body1 s = for_in js body2 s.
Proof.
  induction js as [|j js IH]; intros Hext s; [done |]. simpl.
  rewrite (Hext j s) by apply list_elem_of_here.
  destruct (body2 j s) as [s1|e]; [simpl | done].
  apply IH. intros k s0 Hk. apply Hext. by apply list_elem_of_further.
Qed.

Lemma for_range_ext {St} (body1 body2 : nat → St → result St) n :
  (∀ j s, (j < n)%nat → body1 j s = body2 j s) →
  ∀ s, for_range n body1 s = for_range n body2 s.
Proof.
  intros Hext s. apply for_in_ext. intros j s0 Hj. apply Hext.
  apply elem_of_seq in Hj. lia.
Qed.

(** A property kept by every completed iteration holds after the loop. *)
Lemma for_in_Ok_inv {St} (P : St → Prop) (body : nat → St → result St) js :
  (∀ j s s', P s → body j s = Ok s' → P s') →
  ∀ s s', P s → for_in js body s = Ok s' → P s'.
Proof.
  intros Hstep. induction js as [|j js IH]; intros s s' HP Hrun.
  - by injection Hrun as <-.
  - simpl in Hrun. destruct (body j s) as [s1|e] eqn:E; [| done].
    eapply IH; [| exact Hrun]. by eapply Hstep.
Qed.

(** The exception of a loop is an exception of its body. *)
Lemma for_in_Raise {St} (Q : exn → Prop) (body : nat → St → result St) js :
  (∀ j s e, j ∈ js → body j s = Raise e → Q e) →
  ∀ s e, for_in js body s = Raise e → Q e.
Proof.
  induction js as [|j js IH]; intros Hbody s e Hrun; [done |].
  simpl in Hrun. destruct (body j s) as [s1|e1] eqn:E.
  - eapply IH; [| exact Hrun].
    intros k s0 e0 Hk. apply Hbody. by apply list_elem_of_further.
  - injection Hrun as <-. eapply Hbody; [apply list_elem_of_here | exact E].
Qed.

Lemma for_in_app {St} (body : nat → St → result St) js1 js2 s :
  for_in (js1 ++ js2) body s = for_in js1 body s ≫= for_in js2 body.
Proof.
  revert s. induction js1 as [|j js1 IH]; intros s; [done |]. simpl.
  destruct (body j s) as [s1|e]; [simpl | done]. apply IH.
Qed.

(** A body that ignores the index only counts the iterations. *)
Lemma for_in_count {St} (step : St → result St) js1 :
  ∀ js2 s, length js1 = length js2 →
    for_in js1 (λ _, step) s = for_in js2 (λ _, step) s.
Proof.
  induction js1 as [|j js1 IH]; intros [|j' js2] s Hlen; try done. simpl.
  destruct (step s) as [s1|e]; [simpl | done].
  apply IH. simpl in Hlen. lia.
Qed.

(** ** compute_transition on other inputs *)

Lemma fsum_nonneg_le (row : list Qc) :
  Forall (λ p, 0 ≤ p) row →
  0 ≤ fsum row ∧ ∀ j p, row !! j = Some p → p ≤ fsum row.
Proof.
  induction row as [|x row IH]; intros Hpos.
  - split; [done |]. intros j p Hp. done.
  - apply Forall_cons in Hpos as [Hx Hrow].
    destruct (IH Hrow) as [Hsum Hle]. rewrite fsum_cons.
    split; [by apply Qcplus_nonneg_nonneg |].
    intros [|j] p Hp.
    + injection Hp as <-. rewrite <- (Qcplus_0_r x) at 1.
      by apply Qcplus_le_mono_l.
    + simpl in Hp. apply (Qcle_trans _ (fsum row)); [by eapply Hle |].
      rewrite <- (Qcplus_0_l (fsum row)) at 1. by apply Qcplus_le_mono_r.
Qed.

(** X7. Over exact arithmetic, on a valid input ([n > 0], [n]-by-[n]
    non-negative counts whose rows sum to out-degrees that are at least 1)
    [compute_transition] returns a row-stochastic matrix all of whose
    entries lie in [(0, 1]].  (In binary64 a row can sum to [1 - 2^-52]
    and an entry can be [1 + 2^-52]: [random_surfer_six_links],
    [compute_transition_entry_above_1].) *)
Theorem compute_transition_probabilities counts out_degree n :
  (0 < n)%nat → length out_degree = n → square n counts →
  Forall (Forall (λ c, (0 ≤ c)%Z)) counts →
  Forall (λ d, (1 ≤ d)%Z) out_degree →
  Forall2 (λ crow d, isum crow = d) counts out_degree →
  ∃ T, compute_transition counts out_degree = Ok T
       ∧ row_stochastic n T
       ∧ Forall (Forall (λ p, 0 < p ≤ 1)) T.
Proof.
  intros Hn Hlen Hsq Hpos Hge Hsum.
  destruct (compute_transition_cells counts out_degree n Hlen Hsq
              (Forall_ge1_ne0 _ Hge)) as (T & E & HsqT & HT).
  assert (Forall (Forall (λ p, 0 < p)) T) as Hpositive.
  { apply Forall_lookup. intros i trow Htrow.
    apply Forall_lookup. intros j p Hp.
    destruct (transition_entry counts out_degree n T i j trow p)
      as (Hi & Hj & ->); [done .. |].
    apply cell_floor; [done | by apply entry_nonneg |].
    apply (Forall_lookup_total_1 _ _ i Hge). lia. }
  assert (Forall (λ row, fsum row = 1) T) as Hrows.
  { apply Forall_lookup. intros i trow Htrow.
    by apply (transition_row_sum counts out_degree n T i). }
  exists T. split; [done |]. split.
  - split; [done |]. apply Forall_lookup. intros i trow Htrow. split.
    + eapply Forall_impl; [apply (Forall_lookup_1 _ _ _ _ Hpositive Htrow) |].
      intros p. apply Qclt_le_weak.
    + apply (Forall_lookup_1 _ _ _ _ Hrows Htrow).
  - apply Forall_lookup. intros i trow Htrow.
    pose proof (Forall_lookup_1 _ _ _ _ Hpositive Htrow) as Hp. simpl in Hp.
    pose proof (Forall_lookup_1 _ _ _ _ Hrows Htrow) as Hone. simpl in Hone.
    apply Forall_lookup. intros j p Hj.
    split; [apply (Forall_lookup_1 _ _ _ _ Hp Hj) |].
    rewrite <- Hone. eapply fsum_nonneg_le; [| exact Hj].
    eapply Forall_impl; [exact Hp |]. intros q. apply Qclt_le_weak.
Qed.

Lemma transition_cell_block (counts : list (list Z)) out_degree n i j tm :
  (i < n)%nat → (j < n)%nat →
  transition_cell (take n <$> take n counts) out_degree n i j tm
  = transition_cell counts out_degree n i j tm.
Proof.
  intros Hi Hj. unfold transition_cell, getitem.
  rewrite list_lookup_fmap, lookup_take_lt by done.
  destruct (counts !! i) as [crow|]; [simpl | done].
  by rewrite lookup_take_lt by done.
Qed.

(** X8. [compute_transition] reads only the top-left [n]-by-[n] block of
    [counts], where [n] is the length of [out_degree]: further rows and
    columns do not change the result. *)
Theorem compute_transition_reads_block (counts : list (list Z)) out_degree :
  let n := length out_degree in
  compute_transition (take n <$> take n counts) out_degree
  = compute_transition counts out_degree.
Proof.
  intros n. unfold compute_transition. fold n.
  destruct (for_range n (λ i tm, Ok (tm ++ [replicate n 0])) [])
    as [tm0|e]; [simpl | done].
  apply for_range_ext. intros i tm Hi.
  apply for_range_ext. intros j tm' Hj.
  by apply transition_cell_block.
Qed.

Lemma transition_cell_scale k (counts : list (list Z))
    (out_degree : list Z) n i j tm :
  k ≠ 0%Z →
  transition_cell ((λ crow : list Z, Z.mul k <$> crow) <$> counts) (Z.mul k <$> out_degree)
    n i j tm
  = transition_cell counts out_degree n i j tm.
Proof.
  intros Hk. unfold transition_cell, getitem.
  rewrite !list_lookup_fmap.
  destruct (counts !! i) as [crow|]; [simpl | done].
  rewrite list_lookup_fmap.
  destruct (crow !! j) as [c|]; [simpl | done].
  destruct (out_degree !! i) as [d|]; [simpl | done].
  destruct (decide (d = 0%Z)) as [->|Hd].
  - rewrite Z.mul_0_r.
    by rewrite !(truediv_0 _ (float 0)) by (by rewrite float_eq_0).
  - rewrite (truediv_ne _ (float (k * d))) by (rewrite float_eq_0; lia).
    rewrite (truediv_ne _ (float d)) by (by rewrite float_eq_0).
    replace (f0_9 * float (k * c) / float (k * d))
      with (f0_9 * float c / float d); [done |].
    unfold float. rewrite !Z2Qc_inj_mul.
    assert (Qc_of_Z k ≠ 0) by (by apply (not_iff_compat (float_eq_0 k))).
    assert (Qc_of_Z d ≠ 0) by (by apply (not_iff_compat (float_eq_0 d))).
    by field.
Qed.

(** X9. The matrix depends on the proportions only: multiplying every
    count and every out-degree by the same non-zero integer [k] does not
    change what [compute_transition] returns or raises. *)
Theorem compute_transition_scale k (counts : list (list Z))
    (out_degree : list Z) :
  k ≠ 0%Z →
  compute_transition ((λ crow : list Z, Z.mul k <$> crow) <$> counts) (Z.mul k <$> out_degree)
  = compute_transition counts out_degree.
Proof.
  intros Hk. unfold compute_transition. rewrite length_fmap.
  destruct (for_range _ (λ i tm, Ok (tm ++ [replicate _ 0])) [])
    as [tm0|e]; [simpl | done].
  apply for_range_ext. intros i tm Hi.
  apply for_range_ext. intros j tm' Hj.
  by apply transition_cell_scale.
Qed.


Lemma getitem_Raise {A} (l : list A) i e : getitem l i = Raise e → e = IndexError.
Proof. unfold getitem. destruct (l !! i); [done |]. by intros [= <-]. Qed.

Lemma setitem_Raise {A} (l : list A) i v e :
  setitem l i v = Raise e → e = IndexError.
Proof. unfold setitem. case_decide; [done |]. by intros [= <-]. Qed.




(** ** make_one_move as a sampler *)




(** X12. The column is monotone in the draw: if a draw [r2] finds column
    [j2], every smaller draw [r1] finds a column [j1 <= j2]. *)
Theorem make_one_move_monotone tm n page r1 r2 row j2 :
  square n tm → tm !! page = Some row → r1 ≤ r2 →
  make_one_move tm page r2 = Ok (Some j2) →
  ∃ j1, make_one_move tm page r1 = Ok (Some j1) ∧ (j1 ≤ j2)%nat.
Proof.
  intros Hsq Hrow Hr E2.
  pose proof (make_one_move_spec tm n page r2 row Hsq Hrow) as Hspec2.
  rewrite E2 in Hspec2. destruct Hspec2 as (Hj2 & Hreach2 & _).
  pose proof (make_one_move_spec tm n page r1 row Hsq Hrow) as Hspec1.
  assert (r1 ≤ cumulative row j2) as Hreach1 by by eapply Qcle_trans.
  destruct (make_one_move tm page r1) as [[j1|]|e]; [| | done].
  - exists j1. split; [done |]. destruct Hspec1 as (_ & _ & Hbelow1).
    destruct (decide (j1 ≤ j2)%nat) as [?|Hgt]; [done |].
    exfalso. apply (Qclt_not_le _ _ (Hbelow1 j2 ltac:(lia))). done.
  - exfalso. by apply (Qclt_not_le _ _ (Hspec1 j2 Hj2)).
Qed.


(** ** random_surfer on other inputs *)

Lemma surf_step_Ok tm draws t page tv st' :
  surf_step tm draws t (page, tv) = Ok st' →
  ∃ j count, tv !! j = Some count ∧ st' = (j, <[j:=(count + 1)%Z]> tv).
Proof.
  unfold surf_step.
  destruct (make_one_move tm page (draws t)) as [[j|]|e]; simpl; [| done ..].
  unfold getitem. destruct (tv !! j) as [count|] eqn:Hcount; simpl; [| done].
  unfold setitem. case_decide; simpl; [| done].
  intros [= <-]. by exists j, count.
Qed.

(** Every completed walk leaves one non-negative counter per row. *)
Lemma surf_walk_tally_shape tm num_steps draws page tv :
  surf_walk tm num_steps draws = Ok (page, tv) →
  length tv = length tm ∧ Forall (λ count, (0 ≤ count)%Z) tv.
Proof.
  unfold surf_walk, for_range. intros Hrun.
  apply (for_in_Ok_inv
           (λ st : walk_state,
              length st.2 = length tm ∧ Forall (λ count, (0 ≤ count)%Z) st.2)
           _ _) with (s' := (page, tv)) in Hrun; [done | |].
  - intros t [page0 tv0] st' [Hlen Hpos] Hstep. simpl in *.
    destruct (surf_step_Ok tm draws t page0 tv0 st' Hstep)
      as (j & count & Hcount & ->). simpl.
    split; [by rewrite length_insert |].
    apply Forall_insert; [done |].
    pose proof (Forall_lookup_1 _ _ _ _ Hpos Hcount) as Hc. simpl in Hc. lia.
  - simpl. split; [apply length_replicate | by apply Forall_replicate].
Qed.

Lemma print_ranks_zero tv :
  print_ranks tv 0 []
  = ([], if decide (tv = []) then None else Some ZeroDivisionError).
Proof.
  destruct tv as [|count tv]; [done |]. cbn [print_ranks].
  rewrite (truediv_0 _ (float 0) (proj2 (float_eq_0 _) eq_refl)).
  by rewrite decide_False.
Qed.

(** X13. [random_surfer] prints all or nothing: a run without exception
    prints exactly one rank per row of the matrix, and a run that ends in
    an exception has printed no rank at all. *)
Theorem random_surfer_all_or_nothing tm num_steps draws out status :
  random_surfer tm num_steps draws = (out, status) →
  match status with
  | None => length out = length tm
  | Some _ => out = []
  end.
Proof.
  unfold random_surfer.
  destruct (surf_walk tm num_steps draws) as [[page tv]|e] eqn:Hwalk;
    [| by intros [= <- <-]].
  destruct (surf_walk_tally_shape tm num_steps draws page tv Hwalk)
    as [Hlen _].
  destruct (decide (num_steps = 0%Z)) as [->|Hsteps].
  - rewrite print_ranks_zero. intros [= <- <-].
    case_decide as Htv; [| done]. by rewrite <- Hlen, Htv.
  - rewrite (print_ranks_nonzero tv num_steps Hsteps []). intros [= <- <-].
    simpl. by rewrite length_map.
Qed.

(** X14. With a negative [num_steps] the walk does not move and the
    division is by a non-zero number: [random_surfer] prints a zero for
    every row and raises nothing. *)
Theorem random_surfer_negative_steps tm num_steps draws :
  (num_steps < 0)%Z →
  random_surfer tm num_steps draws = (replicate (length tm) 0, None).
Proof.
  intros Hneg. unfold random_surfer, surf_walk.
  replace (Z.to_nat num_steps) with 0%nat by lia. cbn [for_range seq for_in].
  rewrite (print_ranks_nonzero _ num_steps ltac:(lia) []). simpl.
  f_equal. induction (length tm) as [|m IH]; [done |]. simpl. rewrite IH.
  f_equal. unfold float, Qcdiv. rewrite Z2Qc_inj_0. ring.
Qed.

Lemma isum_nonneg_le (l : list Z) :
  Forall (λ c, (0 ≤ c)%Z) l →
  (0 ≤ isum l)%Z ∧ ∀ j c, l !! j = Some c → (c ≤ isum l)%Z.
Proof.
  induction l as [|x l IH]; intros Hpos.
  - split; [done |]. intros j c Hc. done.
  - apply Forall_cons in Hpos as [Hx Hl].
    destruct (IH Hl) as [Hsum Hle]. rewrite isum_cons.
    split; [lia |]. intros [|j] c Hc.
    + injection Hc as <-. lia.
    + simpl in Hc. specialize (Hle j c Hc). lia.
Qed.

Lemma frequency_in_unit_interval count num_steps :
  (0 ≤ count ≤ num_steps)%Z → (0 < num_steps)%Z →
  0 ≤ float count / float num_steps ≤ 1.
Proof.
  intros [Hc Hle] Hsteps.
  assert (0 ≤ / float num_steps) as Hinv
    by by apply Qclt_le_weak, Qcinv_pos, float_pos.
  split.
  - apply Qcmult_nonneg_nonneg; [by apply float_nonneg | done].
  - rewrite <- (Qcmult_inv_r (float num_steps)) by (rewrite float_eq_0; lia).
    apply Qcmult_le_mono_nonneg_r; [done |].
    unfold float. by apply (proj1 (Z2Qc_inj_le _ _)).
Qed.

(** ** markov_mixing on other inputs *)

Lemma bigsum_nonneg n f : (∀ j, 0 ≤ f j) → 0 ≤ bigsum n f.
Proof.
  intros Hf. induction n as [|n IH]; [done |]. simpl.
  by apply Qcplus_nonneg_nonneg.
Qed.

Lemma entry_nonneg_Qc (m : list (list Qc)) i j :
  Forall (Forall (λ p, 0 ≤ p)) m → 0 ≤ entry 0 m i j.
Proof.
  intros Hpos. unfold entry.
  destruct (m !! i) as [row|] eqn:Hrow; [simpl | done].
  destruct (row !! j) as [p|] eqn:Hp; [simpl | done].
  apply (Forall_lookup_1 _ _ _ _ (Forall_lookup_1 _ _ _ _ Hpos Hrow) Hp).
Qed.

Lemma lookup_total_nonneg (rank : list Qc) j :
  Forall (λ v, 0 ≤ v) rank → 0 ≤ rank !!! j.
Proof.
  intros Hpos. rewrite list_lookup_total_alt.
  destruct (rank !! j) as [v|] eqn:Hv; [simpl | done].
  apply (Forall_lookup_1 _ _ _ _ Hpos Hv).
Qed.

Lemma left_mult_nonneg m rank :
  Forall (Forall (λ p, 0 ≤ p)) m → Forall (λ v, 0 ≤ v) rank →
  Forall (λ v, 0 ≤ v) (left_mult m rank).
Proof.
  intros Hm Hrank. unfold left_mult. apply Forall_fmap, Forall_forall.
  intros i _. simpl. apply bigsum_nonneg. intros j. unfold mix_term.
  apply Qcmult_nonneg_nonneg;
    [by apply lookup_total_nonneg | by apply entry_nonneg_Qc].
Qed.

Lemma mixing_spec_nonneg m k :
  Forall (Forall (λ p, 0 ≤ p)) m → Forall (λ v, 0 ≤ v) (mixing_spec m k).
Proof.
  intros Hm. induction k as [|k IH].
  - unfold mixing_spec. simpl. destruct (length m) as [|n]; simpl; [done |].
    apply Forall_cons. split; [done |]. by apply Forall_replicate.
  - change (mixing_spec m (S k)) with (left_mult m (mixing_spec m k)).
    by apply left_mult_nonneg.
Qed.

(** A run of [markov_mixing] on a row-stochastic matrix. *)
Lemma markov_mixing_run tm n num_steps :
  (1 ≤ n)%nat → row_stochastic n tm →
  ∃ ranks, markov_mixing tm num_steps = (ranks, None)
           ∧ length ranks = n
           ∧ fsum ranks = 1
           ∧ Forall (λ v, 0 ≤ v ≤ 1) ranks.
Proof.
  intros Hn Hstoch. pose proof Hstoch as [Hsq Hrows].
  exists (mixing_spec tm (Z.to_nat num_steps)).
  split; [| split; [| split]].
  - unfold markov_mixing. by rewrite (mix_loop_spec tm n _ Hsq Hn).
  - by rewrite length_mixing_spec, (proj1 Hsq).
  - by apply (fsum_mixing_spec tm n).
  - assert (Forall (λ v, 0 ≤ v) (mixing_spec tm (Z.to_nat num_steps)))
      as Hpos.
    { apply mixing_spec_nonneg. eapply Forall_impl; [exact Hrows |].
      by intros row [? _]. }
    apply Forall_lookup. intros j v Hv.
    split; [apply (Forall_lookup_1 _ _ _ _ Hpos Hv) |].
    rewrite <- (fsum_mixing_spec tm n (Z.to_nat num_steps) Hstoch Hn).
    by eapply fsum_nonneg_le.
Qed.

(** X16. On a row-stochastic [n]-by-[n] matrix ([n >= 1]) [markov_mixing]
    prints a probability distribution for every [num_steps]: [n] ranks,
    each between 0 and 1. *)
Theorem markov_mixing_distribution tm n num_steps :
  (1 ≤ n)%nat → row_stochastic n tm →
  ∃ ranks, markov_mixing tm num_steps = (ranks, None)
           ∧ length ranks = n
           ∧ Forall (λ v, 0 ≤ v ≤ 1) ranks.
Proof.
  intros Hn Hstoch.
  destruct (markov_mixing_run tm n num_steps Hn Hstoch)
    as (ranks & E & Hlen & _ & Hunit).
  by exists ranks.
Qed.

Lemma bigsum_indicator n (a : Qc) :
  bigsum (S n) (λ j, if decide (j = 0%nat) then a else 0) = a.
Proof.
  induction n as [|n IH]; [simpl; ring |].
  change (bigsum (S (S n)) ?f) with (bigsum (S n) f + f (S n)).
  rewrite IH. simpl. ring.
Qed.

Lemma unit0_lookup_total n j :
  (j < n)%nat → unit0 n !!! j = if decide (j = 0%nat) then 1 else 0.
Proof.
  intros Hj. destruct n as [|n]; [lia |]. destruct j as [|j]; [done |].
  simpl. apply lookup_total_replicate_2. lia.
Qed.

(** X17. After one step the rank vector is row 0 of the matrix: on an
    [n]-by-[n] matrix with [n >= 1], [markov_mixing] with
    [num_steps = 1] prints [transition_matrix[0]]. *)
Theorem markov_mixing_first_step tm n row0 :
  square n tm → tm !! 0%nat = Some row0 →
  markov_mixing tm 1 = (row0, None).
Proof.
  intros Hsq Hrow0.
  assert (1 ≤ n)%nat as Hn.
  { rewrite <- (proj1 Hsq). apply lookup_lt_Some in Hrow0. lia. }
  unfold markov_mixing. rewrite (mix_loop_spec tm n _ Hsq Hn).
  do 2 f_equal. change (Z.to_nat 1) with 1%nat.
  change (mixing_spec tm 1) with (left_mult tm (unit0 (length tm))).
  unfold left_mult. rewrite (proj1 Hsq).
  destruct (square_lookup n tm 0 Hsq Hn) as (row & Hrow & Hlen).
  rewrite Hrow0 in Hrow. injection Hrow as <-.
  apply list_eq. intros i. rewrite list_lookup_fmap.
  destruct (decide (i < n)%nat) as [Hi|Hi].
  - rewrite lookup_seq_lt by done. simpl.
    rewrite (bigsum_ext n _ (λ j, if decide (j = 0%nat)
                                  then entry 0 tm 0 i else 0)).
    + destruct n as [|m]; [lia |]. rewrite bigsum_indicator.
      unfold entry. rewrite Hrow0. simpl.
      destruct (lookup_lt_is_Some_2 row0 i) as [p Hp]; [lia |].
      by rewrite Hp.
    + intros j Hj. unfold mix_term. rewrite unit0_lookup_total by done.
      destruct (decide (j = 0%nat)) as [->|_]; ring.
  - rewrite lookup_seq_ge by lia. symmetry. apply lookup_ge_None_2. lia.
Qed.

(** X18. Steps add up: for [a, b >= 0], the rank vector after [a + b]
    iterations is the one obtained by running [b] more iterations from the
    vector after [a] iterations, on any matrix (exceptions included). *)
Theorem mix_loop_compose tm a b :
  (0 ≤ a)%Z → (0 ≤ b)%Z →
  mix_loop tm (a + b) = mix_loop tm a ≫= for_range (Z.to_nat b) (mix_step tm).
Proof.
  intros Ha Hb. unfold mix_loop.
  destruct (setitem (replicate (length tm) 0) 0 1) as [rank|e];
    [simpl | done].
  unfold for_range. rewrite Z2Nat.inj_add, seq_app, for_in_app by done.
  destruct (for_in (seq 0 (Z.to_nat a)) (mix_step tm) rank) as [rank'|e];
    [simpl | done].
  apply (for_in_count (mix_step tm 0%nat)). by rewrite !length_seq.
Qed.

Lemma mix_cell_Raise tm rank i j new_rank e :
  mix_cell tm rank i j new_rank = Raise e → e = IndexError.
Proof.
  unfold mix_cell.
  destruct (getitem new_rank i) as [acc|e1] eqn:E1; simpl;
    [| intros [= <-]; by eapply getitem_Raise].
  destruct (getitem rank j) as [rj|e2] eqn:E2; simpl;
    [| intros [= <-]; by eapply getitem_Raise].
  destruct (getitem tm j) as [row|e3] eqn:E3; simpl;
    [| intros [= <-]; by eapply getitem_Raise].
  destruct (getitem row i) as [p|e4] eqn:E4; simpl;
    [| intros [= <-]; by eapply getitem_Raise].
  apply setitem_Raise.
Qed.

Lemma mix_cell_reads tm rank i j new_rank new_rank' :
  mix_cell tm rank i j new_rank = Ok new_rank' → is_Some (get tm j i).
Proof.
  unfold mix_cell, get, getitem.
  destruct (new_rank !! i) as [acc|]; [simpl | done].
  destruct (rank !! j) as [rj|]; [simpl | done].
  destruct (tm !! j) as [row|]; [simpl | done].
  destruct (row !! i) as [p|]; [simpl | done]. by eexists.
Qed.

(** X19. A matrix with a row shorter than its number of rows is rejected
    as soon as one step is taken: [markov_mixing] with [num_steps >= 1]
    ends in an [IndexError] and prints nothing. *)
Theorem markov_mixing_short_row tm num_steps j row :
  (1 ≤ num_steps)%Z → tm !! j = Some row →
  (length row < length tm)%nat →
  markov_mixing tm num_steps = ([], Some IndexError).
Proof.
  intros Hsteps Hrow Hshort. unfold markov_mixing, mix_loop.
  set (n := length tm) in *.
  assert (j < n)%nat as Hj by (by eapply lookup_lt_Some).
  rewrite (bind_Ok _ _ _ (setitem_lt (replicate n 0) 0 1
                            ltac:(rewrite length_replicate; lia))).
  destruct (for_range (Z.to_nat num_steps) (mix_step tm) _)
    as [rank|e] eqn:Hrun.
  - exfalso.
    destruct (for_range_Ok_body _ _ _ _ 0%nat Hrun ltac:(lia))
      as (x & y & Hstep).
    unfold mix_step in Hstep. fold n in Hstep.
    destruct (for_range_Ok_body _ _ _ _ (length row) Hstep Hshort)
      as (x1 & y1 & Hinner).
    destruct (for_range_Ok_body _ _ _ _ j Hinner Hj) as (a & b & Hcell).
    apply mix_cell_reads in Hcell as [p Hp].
    unfold get in Hp. rewrite Hrow in Hp. simpl in Hp.
    apply lookup_lt_Some in Hp. lia.
  - do 2 f_equal.
    eapply (for_in_Raise (λ e, e = IndexError)); [| exact Hrun].
    intros t rank e1 _ Hstep.
    eapply (for_in_Raise (λ e, e = IndexError)); [| exact Hstep].
    intros i s e2 _ Hinner.
    eapply (for_in_Raise (λ e, e = IndexError)); [| exact Hinner].
    intros j' s' e3 _. apply mix_cell_Raise.
Qed.


(** ** The program from the command line to the ranks *)

(** A well-formed file is read to a consistent graph whose out-degrees
    count the links that leave each node. *)
Lemma read_graph_valid int fs filename line n tokens :
  fs filename = Opened (Some line) (Some tokens) → int line = Some n →
  Nat.even (length tokens) = true →
  Forall (node_token int (Z.to_nat n)) tokens →
  ∃ counts out_degree,
    read_graph int fs filename = ([], Return (counts, out_degree))
    ∧ graph_inv (Z.to_nat n) (counts, out_degree)
    ∧ ∀ i, (i < Z.to_nat n)%nat →
           out_degree !!! i
           = out_count (Z.to_nat n) (edge_list int tokens) i.
Proof.
  intros Hfs Hn Heven Hnodes.
  rewrite (read_graph_Opened int fs filename line n tokens Hfs Hn).
  destruct (edge_loop_Return int (Z.to_nat n) tokens _
              (graph_inv_empty (Z.to_nat n)) Heven Hnodes)
    as ([counts out_degree] & Hloop).
  assert (build_graph int n tokens = Return (counts, out_degree)) as Hbuild
    by by rewrite build_graph_unfold, Heven.
  exists counts, out_degree. rewrite Hbuild. split; [done |].
  destruct (build_graph_inv int n tokens _ Hbuild)
    as (Hinv & _ & _ & _ & Hdegs & _).
  by split.
Qed.

(** A zero out-degree on square counts: the division raises. *)
Lemma compute_transition_sink counts out_degree n i :
  (0 < n)%nat → length out_degree = n → square n counts →
  out_degree !! i = Some 0%Z →
  compute_transition counts out_degree = Raise ZeroDivisionError.
Proof.
  intros Hn Hlen Hsq Hi.
  destruct (first_zero out_degree i Hi) as (i0 & Hi0 & Hleast).
  assert (i0 < n)%nat as Hlt by (rewrite <- Hlen; by eapply lookup_lt_Some).
  unfold compute_transition. rewrite Hlen.
  rewrite (bind_Ok _ _ _ (zero_matrix_loop n)).
  apply (for_range_raise (λ _ s, square n s) _ ZeroDivisionError i0);
    [apply square_zero | done | |].
  - intros k s Hk Hs.
    destruct (transition_row_loop counts out_degree n Hlen Hsq k s)
      as (s' & E & Hs' & _); [lia | by apply Hleast | done |].
    by exists s'.
  - intros s Hs.
    apply (for_range_raise (λ _ _, True) _ ZeroDivisionError 0%nat);
      [done | done | intros j s0 Hj; lia |].
    intros s0 _. by apply transition_cell_ZeroDivisionError.
Qed.

Lemma main_modes int prog mode filename steps fs draws :
  mode = "-r" ∨ mode = "-m" →
  main int [prog; mode; filename; steps] fs draws
  = match read_graph int fs filename with
    | (out, Fail f) => (out, Some f)
    | (out, Return (counts, out_degree)) =>
        match compute_transition counts out_degree with
        | Raise e => (out, Some (Builtin e))
        | Ok transition_matrix =>
            match int steps with
            | None => (out, Some ValueError)
            | Some num_steps =>
                let (ranks, status) :=
                  if bool_decide (mode = "-r")
                  then show (random_surfer transition_matrix num_steps draws)
                  else show (markov_mixing transition_matrix num_steps)
                in (out ++ ranks, status)
            end
        end
    end.
Proof. intros [-> | ->]; reflexivity. Qed.

(** X20. A node without outgoing links stops the program: for a
    well-formed file on [n > 0] nodes in which some node is the source of
    no pair, both modes end in the uncaught [ZeroDivisionError] of
    [compute_transition], print nothing, and never look at the step
    count. *)
Theorem main_node_without_links int prog mode filename steps fs draws
    line n tokens i :
  mode = "-r" ∨ mode = "-m" →
  fs filename = Opened (Some line) (Some tokens) → int line = Some n →
  Nat.even (length tokens) = true →
  Forall (node_token int (Z.to_nat n)) tokens →
  (i < Z.to_nat n)%nat →
  out_count (Z.to_nat n) (edge_list int tokens) i = 0%Z →
  main int [prog; mode; filename; steps] fs draws
  = ([], Some (Builtin ZeroDivisionError)).
Proof.
  intros Hmode Hfs Hn Heven Hnodes Hi Hsink.
  destruct (read_graph_valid int fs filename line n tokens Hfs Hn Heven Hnodes)
    as (counts & out_degree & Hread & (Hsq & Hlen & _) & Hdegs).
  simpl in Hsq, Hlen.
  rewrite (main_modes int prog mode filename steps fs draws Hmode), Hread.
  rewrite (compute_transition_sink counts out_degree (Z.to_nat n) i);
    [done | lia | done | done |].
  rewrite <- Hsink, <- (Hdegs i Hi).
  apply list_lookup_lookup_total_lt. lia.
Qed.

(** A well-formed file in which every node has an outgoing link gives a
    row-stochastic matrix. *)
Lemma pipeline_matrix int fs filename line n tokens :
  fs filename = Opened (Some line) (Some tokens) → int line = Some n →
  (0 < n)%Z → Nat.even (length tokens) = true →
  Forall (node_token int (Z.to_nat n)) tokens →
  (∀ i, (i < Z.to_nat n)%nat →
        (1 ≤ out_count (Z.to_nat n) (edge_list int tokens) i)%Z) →
  ∃ counts out_degree T,
    read_graph int fs filename = ([], Return (counts, out_degree))
    ∧ compute_transition counts out_degree = Ok T
    ∧ row_stochastic (Z.to_nat n) T.
Proof.
  intros Hfs Hn Hpos Heven Hnodes Hlinks.
  destruct (read_graph_valid int fs filename line n tokens Hfs Hn Heven Hnodes)
    as (counts & out_degree & Hread & (Hsq & Hlen & Hcpos & _ & Hsum) & Hdegs).
  simpl in *.
  destruct (compute_transition_row_stochastic counts out_degree (Z.to_nat n))
    as (T & E & Hstoch); [lia | done | done | done | | done |].
  { apply Forall_lookup. intros i d Hd.
    assert (i < Z.to_nat n)%nat as Hi
      by (rewrite <- Hlen; by eapply lookup_lt_Some).
    rewrite <- (list_lookup_total_correct _ _ _ Hd), (Hdegs i Hi).
    by apply Hlinks. }
  by exists counts, out_degree, T.
Qed.

(** X21. End to end, Markov mode: for a well-formed file on [n > 0] nodes
    in which every node is the source of at least one pair, and a step
    count that converts, the program prints [n] ranks between 0 and 1 that
    sum to 1 (over exact arithmetic), then the newline, and ends
    normally. *)
Theorem main_markov_mixing int prog filename steps fs draws
    line n tokens num_steps :
  fs filename = Opened (Some line) (Some tokens) → int line = Some n →
  (0 < n)%Z → Nat.even (length tokens) = true →
  Forall (node_token int (Z.to_nat n)) tokens →
  (∀ i, (i < Z.to_nat n)%nat →
        (1 ≤ out_count (Z.to_nat n) (edge_list int tokens) i)%Z) →
  int steps = Some num_steps →
  ∃ ranks,
    main int [prog; "-m"; filename; steps] fs draws
    = (map Value ranks ++ [Newline], None)
    ∧ length ranks = Z.to_nat n
    ∧ fsum ranks = 1
    ∧ Forall (λ v, 0 ≤ v ≤ 1) ranks.
Proof.
  intros Hfs Hn Hpos Heven Hnodes Hlinks Hsteps.
  destruct (pipeline_matrix int fs filename line n tokens
              Hfs Hn Hpos Heven Hnodes Hlinks)
    as (counts & out_degree & T & Hread & HT & Hstoch).
  destruct (markov_mixing_run T (Z.to_nat n) num_steps ltac:(lia) Hstoch)
    as (ranks & E & Hlen & Hsum & Hunit).
  exists ranks. split; [| done].
  rewrite (main_modes int prog "-m" filename steps fs draws (or_intror eq_refl)).
  rewrite Hread, HT, Hsteps. rewrite bool_decide_false by done.
  by rewrite E.
Qed.

(** ** Worked runs *)

Ltac in_range := vm_compute; split; [discriminate | reflexivity].

Ltac node_tokens :=
  repeat (apply Forall_cons; split;
          [eexists; split; [reflexivity | in_range] |]);
  constructor.

Lemma cycle3_file :
  example_fs "cycle3.txt"
  = Opened (Some ("3" +:+ newline)) (Some ["0"; "1"; "1"; "2"; "2"; "0"]).
Proof. reflexivity. Qed.

Lemma cycle3_links i :
  (i < Z.to_nat 3)%nat →
  (1 ≤ out_count (Z.to_nat 3)
         (edge_list int_decimal ["0"; "1"; "1"; "2"; "2"; "0"]) i)%Z.
Proof.
  intros Hi. change (Z.to_nat 3) with 3%nat in *.
  destruct i as [|[|[|i]]]; [by vm_compute .. | lia].
Qed.

Lemma read_graph_consistent_witness :
  [] = ([] : list printed)
  ∧ ∃ line n tokens,
      example_fs "cycle3.txt" = Opened (Some line) (Some tokens)
      ∧ int_decimal line = Some n
      ∧ square (Z.to_nat n) cycle3_counts
      ∧ length cycle3_out_degree = Z.to_nat n
      ∧ Forall (Forall (λ c, (0 ≤ c)%Z)) cycle3_counts
      ∧ Forall (λ d, (0 ≤ d)%Z) cycle3_out_degree
      ∧ Forall2 (λ crow d, isum crow = d) cycle3_counts cycle3_out_degree
      ∧ (2 * isum cycle3_out_degree = Z.of_nat (length tokens))%Z.
Proof.
  apply (read_graph_consistent int_decimal example_fs "cycle3.txt").
  reflexivity.
Defined.

Lemma read_graph_counts_links_witness :
  entry 0%Z cycle3_counts 0 1
  = link_count (Z.to_nat 3)
      (edge_list int_decimal ["-3"; "1"; "-2"; "-1"; "2"; "-3"]) 0 1
  ∧ cycle3_out_degree !!! 0%nat
    = out_count (Z.to_nat 3)
        (edge_list int_decimal ["-3"; "1"; "-2"; "-1"; "2"; "-3"]) 0.
Proof.
  apply (read_graph_counts_links int_decimal example_fs "wrapped.txt"
           ("3" +:+ newline) 3 ["-3"; "1"; "-2"; "-1"; "2"; "-3"]
           cycle3_counts cycle3_out_degree);
    [reflexivity | reflexivity | reflexivity | vm_compute; lia].
Defined.

Lemma read_graph_well_formed_witness :
  ∃ counts out_degree,
    read_graph int_decimal example_fs "cycle3.txt"
    = ([], Return (counts, out_degree)).
Proof.
  apply (read_graph_well_formed int_decimal example_fs "cycle3.txt"
           ("3" +:+ newline) 3 ["0"; "1"; "1"; "2"; "2"; "0"]);
    [reflexivity | reflexivity | reflexivity | node_tokens].
Defined.

Lemma read_graph_odd_tokens_witness :
  read_graph int_decimal example_fs "odd.txt" = ([], Fail AssertionError).
Proof.
  apply (read_graph_odd_tokens int_decimal example_fs "odd.txt"
           ("2" +:+ newline) 2 ["0"; "1"; "1"]); reflexivity.
Defined.

Lemma read_graph_node_out_of_range_witness :
  read_graph int_decimal example_fs "far.txt"
  = ([], Fail (Builtin IndexError)).
Proof.
  apply (read_graph_node_out_of_range int_decimal example_fs "far.txt"
           ("2" +:+ newline) 2 ["0"; "2"]);
    [reflexivity | reflexivity | reflexivity | by repeat constructor |].
  intros Hnodes.
  apply Forall_cons in Hnodes as [_ Hnodes].
  apply Forall_cons in Hnodes as [(z & Hz & Hrange) _].
  vm_compute in Hz. injection Hz as <-. vm_compute in Hrange.
  destruct Hrange as [_ Hlt]. discriminate.
Defined.

Lemma read_graph_negative_nodes_witness :
  read_graph int_decimal example_fs "wrapped.txt"
  = read_graph int_decimal example_fs "cycle3.txt".
Proof.
  apply (read_graph_negative_nodes int_decimal example_fs
           "wrapped.txt" "cycle3.txt" ("3" +:+ newline) ("3" +:+ newline) 3
           ["-3"; "1"; "-2"; "-1"; "2"; "-3"] ["0"; "1"; "1"; "2"; "2"; "0"]);
    [reflexivity | reflexivity | reflexivity | reflexivity |].
  repeat (apply Forall2_cons; split;
          [eexists; split; [reflexivity | split; [in_range | reflexivity]] |]).
  constructor.
Defined.

Lemma compute_transition_probabilities_witness :
  ∃ T, compute_transition cycle3_counts cycle3_out_degree = Ok T
       ∧ row_stochastic 3 T
       ∧ Forall (Forall (λ p, 0 < p ≤ 1)) T.
Proof.
  apply (compute_transition_probabilities cycle3_counts cycle3_out_degree 3);
    [lia | reflexivity | apply cycle3_square | | |];
    repeat constructor; (reflexivity || lia).
Defined.

Lemma compute_transition_scale_witness :
  compute_transition ((λ crow : list Z, Z.mul 2 <$> crow) <$> cycle3_counts)
    (Z.mul 2 <$> cycle3_out_degree)
  = compute_transition cycle3_counts cycle3_out_degree.
Proof. apply (compute_transition_scale 2). lia. Defined.



Lemma make_one_move_monotone_witness :
  ∃ j1, make_one_move cycle3_matrix 0 (Q2Qc (1 # 100)) = Ok (Some j1)
        ∧ (j1 ≤ 1)%nat.
Proof.
  apply (make_one_move_monotone cycle3_matrix 3 0 (Q2Qc (1 # 100))
           (Q2Qc (1 # 2)) [Q2Qc (1 # 30); Q2Qc (14 # 15); Q2Qc (1 # 30)]);
    [apply cycle3_matrix_stochastic | reflexivity | by vm_compute
    | reflexivity].
Defined.

Lemma random_surfer_all_or_nothing_witness : [] = ([] : list Qc).
Proof.
  apply (random_surfer_all_or_nothing truncated3_matrix 1 (λ _, high_draw)
           [] (Some TypeError)).
  reflexivity.
Defined.

Lemma random_surfer_negative_steps_witness :
  random_surfer cycle3_matrix (-1) half_draws
  = (replicate (length cycle3_matrix) 0, None).
Proof. apply (random_surfer_negative_steps cycle3_matrix (-1)). lia. Defined.

Lemma markov_mixing_distribution_witness :
  ∃ ranks, markov_mixing cycle3_matrix 2 = (ranks, None)
           ∧ length ranks = 3%nat
           ∧ Forall (λ v, 0 ≤ v ≤ 1) ranks.
Proof.
  apply (markov_mixing_distribution cycle3_matrix 3 2);
    [lia | apply cycle3_matrix_stochastic].
Defined.

Lemma markov_mixing_first_step_witness :
  markov_mixing cycle3_matrix 1
  = ([Q2Qc (1 # 30); Q2Qc (14 # 15); Q2Qc (1 # 30)], None).
Proof.
  apply (markov_mixing_first_step cycle3_matrix 3);
    [apply cycle3_matrix_stochastic | reflexivity].
Defined.

Lemma mix_loop_compose_witness :
  mix_loop cycle3_matrix (1 + 1)
  = mix_loop cycle3_matrix 1
    ≫= for_range (Z.to_nat 1) (mix_step cycle3_matrix).
Proof. apply (mix_loop_compose cycle3_matrix 1 1); lia. Defined.

Lemma markov_mixing_short_row_witness :
  markov_mixing ragged_matrix 1 = ([], Some IndexError).
Proof.
  apply (markov_mixing_short_row ragged_matrix 1 1 [1]);
    [lia | reflexivity | simpl; lia].
Defined.

Lemma main_node_without_links_witness :
  main int_decimal ["pagerank.py"; "-r"; "edge01.txt"; "many"]
    example_fs half_draws
  = ([], Some (Builtin ZeroDivisionError)).
Proof.
  apply (main_node_without_links int_decimal "pagerank.py" "-r" "edge01.txt"
           "many" example_fs half_draws ("2" +:+ newline) 2 ["0"; "1"] 1);
    [by left | reflexivity | reflexivity | reflexivity | node_tokens
    | by vm_compute | reflexivity].
Defined.

Lemma main_markov_mixing_witness :
  ∃ ranks,
    main int_decimal ["pagerank.py"; "-m"; "cycle3.txt"; "2"]
      example_fs half_draws
    = (map Value ranks ++ [Newline], None)
    ∧ length ranks = Z.to_nat 3
    ∧ fsum ranks = 1
    ∧ Forall (λ v, 0 ≤ v ≤ 1) ranks.
Proof.
  apply (main_markov_mixing int_decimal "pagerank.py" "cycle3.txt" "2"
           example_fs half_draws ("3" +:+ newline) 3
           ["0"; "1"; "1"; "2"; "2"; "0"] 2);
    [apply cycle3_file | reflexivity | lia | reflexivity | node_tokens
    | apply cycle3_links | reflexivity].
Defined.

(** * The binary64 reading *)

(** ** Loops and conversions *)

Lemma answer_bind_Done {A B} (m : B64.answer A) (k : A → B64.answer B) a :
  m = B64.Done a → (m ≫= k) = k a.
Proof. by intros ->. Qed.

Lemma lift_bind_Ok {A B} (r : result A) (k : A → B64.answer B) a :
  r = Ok a → (B64.lift r ≫= k) = k a.
Proof. by intros ->. Qed.

Lemma for_in_answer_inv {St} (P : nat → St → Prop)
    (body : nat → St → B64.answer St) m :
  ∀ a s,
    P a s →
    (∀ k s, (a ≤ k < a + m)%nat → P k s →
            ∃ s', body k s = B64.Done s' ∧ P (S k) s') →
    ∃ s', B64.for_in_answer (seq a m) body s = B64.Done s' ∧ P (a + m)%nat s'.
Proof.
  induction m as [|m IH]; intros a s HP Hstep; simpl.
  - exists s. by rewrite Nat.add_0_r.
  - destruct (Hstep a s) as (s1 & E1 & P1); [lia | done |].
    rewrite (answer_bind_Done _ _ _ E1).
    destruct (IH (S a) s1) as (s2 & E2 & P2); [done | |].
    + intros k s0 Hk. apply Hstep. lia.
    + exists s2. split; [done |].
      by replace (a + S m)%nat with (S a + m)%nat by lia.
Qed.

Lemma for_range_answer_inv {St} (P : nat → St → Prop)
    (body : nat → St → B64.answer St) n s :
  P 0%nat s →
  (∀ k s, (k < n)%nat → P k s →
          ∃ s', body k s = B64.Done s' ∧ P (S k) s') →
  ∃ s', B64.for_range_answer n body s = B64.Done s' ∧ P n s'.
Proof.
  intros HP Hstep.
  apply (for_in_answer_inv P body n 0%nat s HP).
  intros k s0 Hk. apply Hstep. lia.
Qed.

Lemma float_of_int_fits z :
  B64.fits z → B64.float_of_int z = B64.Done (B64.nearest z).
Proof. intros Hz. unfold B64.float_of_int. by rewrite decide_True. Qed.

Lemma truediv_fits x d :
  B64.fits d → d ≠ 0%Z →
  B64.truediv x d = B64.Done (PrimFloat.div x (B64.nearest d)).
Proof.
  intros Hfit Hd. unfold B64.truediv.
  rewrite (answer_bind_Done _ _ _ (float_of_int_fits d Hfit)).
  by rewrite decide_False.
Qed.

Lemma overflow_threshold_gt_1 : (1 < B64.overflow_threshold)%Z.
Proof. reflexivity. Qed.

Lemma fits_1 : B64.fits 1.
Proof. reflexivity. Qed.

Lemma int_truediv_fraction count num_steps :
  (0 ≤ count ≤ num_steps)%Z → (0 < num_steps)%Z →
  B64.int_truediv count num_steps = B64.Done (B64.quotient count num_steps).
Proof.
  intros Hc Hsteps. unfold B64.int_truediv.
  rewrite decide_False by lia.
  pose proof overflow_threshold_gt_1.
  rewrite decide_True by nia. done.
Qed.

(** ** compute_transition in binary64 *)

Lemma zero_matrix_loop_binary64 n :
  B64.for_range_answer n
    (λ (i : nat) (tm : list (list PrimFloat.float)),
       B64.Done (tm ++ [replicate n PrimFloat.zero])) []
  = B64.Done (replicate n (replicate n PrimFloat.zero)).
Proof.
  destruct (for_range_answer_inv
              (λ k (tm : list (list PrimFloat.float)),
                 tm = replicate k (replicate n PrimFloat.zero))
              (λ i tm, B64.Done (tm ++ [replicate n PrimFloat.zero])) n [])
    as (tm & E & ->); [done | | done].
  intros k s _ ->. eexists. split; [done |]. by rewrite replicate_S_end.
Qed.

Section transition_binary64.
Variables (counts : list (list Z)) (out_degree : list Z) (n : nat).
Hypothesis Hn : (0 < n)%nat.
Hypothesis Hlen : length out_degree = n.
Hypothesis Hcounts : square n counts.
Hypothesis Hnz : Forall (λ d, d ≠ 0%Z) out_degree.
Hypothesis Hcfit : Forall (Forall B64.fits) counts.
Hypothesis Hdfit : Forall B64.fits out_degree.
Hypothesis Hnfit : B64.fits (Z.of_nat n).

Lemma transition_cell_Done i j tm row :
  (i < n)%nat → (j < n)%nat →
  tm !! i = Some row → length row = n →
  B64.transition_cell counts out_degree n i j tm
  = B64.Done (<[i:=<[j:=B64.cell (entry 0%Z counts i j)
                          (out_degree !!! i) n]> row]> tm).
Proof.
  intros Hi Hj Hrow Hrowlen. unfold B64.transition_cell, B64.cell.
  destruct (square_lookup n counts i Hcounts Hi) as (crow & Hcrow & Hcl).
  destruct (lookup_lt_is_Some_2 crow j) as [c Hc]; [lia |].
  rewrite (get_entry 0%Z counts i j c) by (unfold get; by rewrite Hcrow).
  rewrite (lift_bind_Ok _ _ _ (getitem_Some _ _ _ Hcrow)).
  rewrite (lift_bind_Ok _ _ _ (getitem_Some _ _ _ Hc)).
  rewrite (answer_bind_Done _ _ _ (float_of_int_fits c
    (Forall_lookup_1 _ _ _ _ (Forall_lookup_1 _ _ _ _ Hcfit Hcrow) Hc))).
  assert (out_degree !! i = Some (out_degree !!! i)) as Hod
    by (apply list_lookup_lookup_total_lt; lia).
  rewrite (lift_bind_Ok _ _ _ (getitem_Some _ _ _ Hod)).
  rewrite (answer_bind_Done _ _ _ (truediv_fits _ (out_degree !!! i)
    (Forall_lookup_1 _ _ _ _ Hdfit Hod) (Forall_lookup_1 _ _ _ _ Hnz Hod))).
  rewrite (answer_bind_Done _ _ _ (float_of_int_fits 1 fits_1)).
  rewrite (answer_bind_Done _ _ _ (truediv_fits _ (Z.of_nat n) Hnfit
    ltac:(lia))).
  rewrite (lift_bind_Ok _ _ _ (getitem_Some _ _ _ Hrow)).
  rewrite (lift_bind_Ok _ _ _ (setitem_lt row j _ ltac:(lia))).
  by rewrite setitem_lt by (by eapply lookup_lt_Some).
Qed.

Lemma transition_row_loop_binary64 i tm :
  (i < n)%nat → square n tm →
  ∃ tm',
    B64.for_range_answer n
      (λ j tm, B64.transition_cell counts out_degree n i j tm) tm
    = B64.Done tm'
    ∧ square n tm'
    ∧ (∀ i' j, i' ≠ i → get tm' i' j = get tm i' j)
    ∧ (∀ j, (j < n)%nat →
            get tm' i j
            = Some (B64.cell (entry 0%Z counts i j) (out_degree !!! i) n)).
Proof.
  intros Hi Hsq.
  apply (for_range_answer_inv (λ k s,
    square n s
    ∧ (∀ i' j, i' ≠ i → get s i' j = get tm i' j)
    ∧ (∀ j, (j < k)%nat →
            get s i j
            = Some (B64.cell (entry 0%Z counts i j) (out_degree !!! i) n)))).
  - split; [done |]. split; [done |]. intros j Hj. lia.
  - intros k s Hk (Hs & Hother & Hdone).
    destruct (square_lookup n s i Hs Hi) as (row & Hrow & Hrowlen).
    eexists. split; [by apply transition_cell_Done |].
    split; [|split].
    + apply square_insert; [done |]. by rewrite length_insert.
    + intros i' j Hne. rewrite (get_insert s i k row) by (done || lia).
      rewrite decide_False by tauto. by apply Hother.
    + intros j Hj. rewrite (get_insert s i k row) by (done || lia).
      destruct (decide (i = i ∧ j = k)) as [[_ ->]|Hne]; [done |].
      apply Hdone. destruct (decide (j = k)); [tauto | lia].
Qed.

Lemma compute_transition_cells_binary64 :
  ∃ T, B64.compute_transition counts out_degree = B64.Done T
       ∧ square n T
       ∧ ∀ i j, (i < n)%nat → (j < n)%nat →
           get T i j
           = Some (B64.cell (entry 0%Z counts i j) (out_degree !!! i) n).
Proof.
  unfold B64.compute_transition. rewrite Hlen.
  rewrite (answer_bind_Done _ _ _ (zero_matrix_loop_binary64 n)).
  destruct (for_range_answer_inv (λ k s,
    square n s
    ∧ ∀ i j, (i < k)%nat → (j < n)%nat →
        get s i j
        = Some (B64.cell (entry 0%Z counts i j) (out_degree !!! i) n))
    (λ i tm,
      B64.for_range_answer n
        (λ j tm, B64.transition_cell counts out_degree n i j tm) tm)
    n (replicate n (replicate n PrimFloat.zero))) as (T & E & HsqT & HT).
  - split; [| intros i j Hi; lia].
    split; [apply length_replicate |].
    apply Forall_replicate, length_replicate.
  - intros k s Hk (Hs & Hdone).
    destruct (transition_row_loop_binary64 k s Hk Hs)
      as (s' & E & Hs' & Hother & Hrow).
    exists s'. split; [done |]. split; [done |].
    intros i j Hi Hj. destruct (decide (i = k)) as [->|Hne].
    + by apply Hrow.
    + rewrite Hother by done. apply Hdone; lia.
  - by exists T.
Qed.

End transition_binary64.


(** C1, as the code has it.  For [n > 0], an [n]-by-[n] matrix [counts]
    and a length-[n] vector [out_degree] without a zero, all of them
    integers that a float can hold, [compute_transition] returns an
    [n]-by-[n] matrix [T] with
    [T[i][j] = (0.9 * counts[i][j]) / out_degree[i] + (0.1 * 1) / n],
    every operation rounded in binary64 in the order of the source.  Over
    exact arithmetic that value is the formula of the spec,
    [0.9 * (counts[i][j] / out_degree[i]) + 0.1 * (1/n)]. *)
Theorem compute_transition_binary64 counts out_degree n :
  (0 < n)%nat → length out_degree = n → square n counts →
  Forall (λ d, d ≠ 0%Z) out_degree →
  Forall (Forall B64.fits) counts → Forall B64.fits out_degree →
  B64.fits (Z.of_nat n) →
  ∃ T, B64.compute_transition counts out_degree = B64.Done T
       ∧ square n T
       ∧ ∀ i j, (i < n)%nat → (j < n)%nat →
           get T i j
           = Some (B64.cell (entry 0%Z counts i j) (out_degree !!! i) n)
           ∧ cell counts out_degree n i j
             = transition_formula counts out_degree n i j.
Proof.
  intros Hn Hlen Hsq Hnz Hcfit Hdfit Hnfit.
  destruct (compute_transition_cells_binary64 counts out_degree n
              Hn Hlen Hsq Hnz Hcfit Hdfit Hnfit) as (T & E & HsqT & HT).
  exists T. split; [done |]. split; [done |].
  intros i j Hi Hj. split; [by apply HT |].
  apply cell_formula; [done |].
  apply (Forall_lookup_total_1 _ _ _ Hnz). lia.
Qed.

(** In binary64 the stored value is not always the value of the spec's
    formula: with one node and nine self-links the code stores
    [0.9999999999999999], the formula gives [1.0]; and a count of [2^1024]
    is not stored at all. *)
Lemma compute_transition_formula_off_by_rounding :
  (B64.compute_transition [[9]]%Z [9]%Z
   = B64.Done [[0x1.fffffffffffffp-1%float]]
   ∧ B64.formula 9 9 1 = 1%float
   ∧ PrimFloat.eqb 0x1.fffffffffffffp-1%float (B64.formula 9 9 1) = false)
  ∧ B64.compute_transition [[2 ^ 1024]]%Z [1]%Z = B64.Err B64.OverflowError.
Proof. split; [by vm_compute | by vm_compute]. Qed.

(** In binary64 an entry can exceed 1 in the last place: one node with
    thirteen self-links. *)
Example compute_transition_entry_above_1 :
  B64.compute_transition [[13]]%Z [13]%Z
  = B64.Done [[0x1.0000000000001p+0%float]]
  ∧ PrimFloat.ltb 1 0x1.0000000000001p+0 = true.
Proof. vm_compute. done. Qed.

Lemma compute_transition_binary64_witness :
  ∃ T, B64.compute_transition cycle3_counts cycle3_out_degree = B64.Done T
       ∧ square 3 T
       ∧ ∀ i j, (i < 3)%nat → (j < 3)%nat →
           get T i j
           = Some (B64.cell (entry 0%Z cycle3_counts i j)
                     (cycle3_out_degree !!! i) 3)
           ∧ cell cycle3_counts cycle3_out_degree 3 i j
             = transition_formula cycle3_counts cycle3_out_degree 3 i j.
Proof.
  apply (compute_transition_binary64 cycle3_counts cycle3_out_degree 3);
    [lia | reflexivity | apply cycle3_square | by repeat constructor
    | by repeat constructor | by repeat constructor | reflexivity].
Defined.

(** ** make_one_move and random_surfer in binary64 *)

Lemma cumulative_binary64_S row a p :
  row !! a = Some p →
  B64.cumulative row a
  = PrimFloat.add (fold_left PrimFloat.add (take a row) PrimFloat.zero) p.
Proof.
  intros Hp. unfold B64.cumulative.
  by rewrite (take_S_r _ _ _ Hp), fold_left_app.
Qed.

(** The scan returns the first column whose running sum reaches [r], or
    [None] when none does. *)
Lemma scan_binary64_spec tm page r row :
  tm !! page = Some row →
  ∀ m a, (a + m ≤ length row)%nat →
    match B64.scan tm page r (seq a m)
            (fold_left PrimFloat.add (take a row) PrimFloat.zero) with
    | Ok (Some j) =>
        (a ≤ j < a + m)%nat
        ∧ PrimFloat.leb r (B64.cumulative row j) = true
        ∧ ∀ k, (a ≤ k < j)%nat →
               PrimFloat.leb r (B64.cumulative row k) = false
    | Ok None =>
        ∀ k, (a ≤ k < a + m)%nat →
             PrimFloat.leb r (B64.cumulative row k) = false
    | Raise _ => False
    end.
Proof.
  intros Hrow. induction m as [|m IH]; intros a Hlen; simpl.
  - intros k Hk. lia.
  - rewrite (bind_Ok _ _ _ (getitem_Some _ _ _ Hrow)).
    destruct (lookup_lt_is_Some_2 row a) as [p Hp]; [lia |].
    rewrite (bind_Ok _ _ _ (getitem_Some _ _ _ Hp)).
    rewrite <- (cumulative_binary64_S row a p Hp).
    destruct (PrimFloat.leb r (B64.cumulative row a)) eqn:Hcmp.
    + split; [lia |]. split; [done |]. intros k Hk. lia.
    + specialize (IH (S a) ltac:(lia)).
      fold (B64.cumulative row a) in IH.
      destruct (B64.scan tm page r (seq (S a) m) (B64.cumulative row a))
        as [[j|]|e]; [| | done].
      * destruct IH as (Hj & Hreach & Hbelow).
        split; [lia |]. split; [done |].
        intros k Hk. destruct (decide (k = a)) as [->|Hne]; [done |].
        apply Hbelow. lia.
      * intros k Hk. destruct (decide (k = a)) as [->|Hne]; [done |].
        apply IH. lia.
Qed.

Lemma make_one_move_binary64_spec tm n page r row :
  square n tm → tm !! page = Some row →
  match B64.make_one_move tm page r with
  | Ok (Some j) =>
      (j < n)%nat ∧ PrimFloat.leb r (B64.cumulative row j) = true
      ∧ ∀ k, (k < j)%nat → PrimFloat.leb r (B64.cumulative row k) = false
  | Ok None =>
      ∀ k, (k < n)%nat → PrimFloat.leb r (B64.cumulative row k) = false
  | Raise _ => False
  end.
Proof.
  intros [Hlen Hrows] Hrow. unfold B64.make_one_move. rewrite Hlen.
  pose proof (Forall_lookup_1 _ _ _ _ Hrows Hrow) as Hrowlen.
  simpl in Hrowlen.
  pose proof (scan_binary64_spec tm page r row Hrow n 0%nat
                ltac:(simpl; lia)) as Hscan.
  change (fold_left PrimFloat.add (take 0 row) PrimFloat.zero)
    with PrimFloat.zero in Hscan.
  destruct (B64.scan tm page r (seq 0 n) PrimFloat.zero) as [[j|]|e];
    [| | done].
  - destruct Hscan as (Hj & Hreach & Hbelow).
    split; [lia |]. split; [done |]. intros k Hk. apply Hbelow. lia.
  - intros k Hk. apply Hscan. lia.
Qed.

Section surfer_binary64.
Variables (transition_matrix : list (list PrimFloat.float)) (n : nat).
Variable draws : nat → PrimFloat.float.
Variable steps : nat.
Hypothesis Hsq : square n transition_matrix.
Hypothesis Hreach : B64.reaches transition_matrix n steps draws.

Lemma surf_step_binary64_inv t st :
  (t < steps)%nat → walk_inv n t st ∧ Forall (λ c, (0 ≤ c)%Z) st.2 →
  ∃ st', B64.surf_step transition_matrix draws t st = Ok st'
         ∧ walk_inv n (S t) st' ∧ Forall (λ c, (0 ≤ c)%Z) st'.2.
Proof.
  destruct st as [page tv]. intros Ht [(Hpage & Hlen & Hsum) Hpos].
  simpl in *.
  destruct (square_lookup n transition_matrix page Hsq Hpage)
    as (row & Hrow & Hrowlen).
  pose proof (make_one_move_binary64_spec transition_matrix n page (draws t)
                row Hsq Hrow) as Hspec.
  destruct (B64.make_one_move transition_matrix page (draws t))
    as [[j|]|e] eqn:E; [| | done].
  - destruct Hspec as (Hj & _). simpl.
    destruct (lookup_lt_is_Some_2 tv j) as [count Hcount]; [lia |].
    rewrite (bind_Ok _ _ _ (getitem_Some _ _ _ Hcount)).
    rewrite (bind_Ok _ _ _ (setitem_lt tv j _ ltac:(lia))).
    eexists. split; [done |]. unfold walk_inv. simpl.
    pose proof (Forall_lookup_1 _ _ _ _ Hpos Hcount) as Hc. simpl in Hc.
    split; [split; [done |]; split; [by rewrite length_insert |] |].
    + rewrite (isum_insert tv j count) by done. lia.
    + apply Forall_insert; [done | lia].
  - exfalso. destruct (Hreach t page row Ht Hrow) as (j & Hj & Hle).
    by rewrite (Hspec j Hj) in Hle.
Qed.

Lemma surf_walk_binary64_tally :
  (1 ≤ n)%nat →
  ∃ st, for_range steps (B64.surf_step transition_matrix draws)
          (0%nat, replicate n 0%Z) = Ok st
        ∧ walk_inv n steps st ∧ Forall (λ c, (0 ≤ c)%Z) st.2.
Proof.
  intros Hn.
  apply (for_range_inv
           (λ k st, walk_inv n k st ∧ Forall (λ c, (0 ≤ c)%Z) st.2)).
  - unfold walk_inv. simpl.
    split; [| by apply Forall_replicate].
    split; [lia |]. split; [apply length_replicate |].
    apply isum_replicate_0.
  - intros k s Hk. by apply surf_step_binary64_inv.
Qed.

End surfer_binary64.

Lemma print_ranks_binary64 tv num_steps :
  (0 < num_steps)%Z → Forall (λ c, (0 ≤ c ≤ num_steps)%Z) tv →
  ∀ out, B64.print_ranks tv num_steps out
         = (out ++ map (λ count, B64.quotient count num_steps) tv, None).
Proof.
  intros Hsteps. induction tv as [|count tv IH]; intros Hbound out; simpl.
  - by rewrite app_nil_r.
  - apply Forall_cons in Hbound as [Hc Htv].
    rewrite (int_truediv_fraction count num_steps Hc Hsteps).
    rewrite (IH Htv). by rewrite <- app_assoc.
Qed.

(** C6, as the code has it.  For an [n]-by-[n] matrix ([n >= 1]),
    [num_steps > 0] and draws each of which is reached by the binary64
    running sum of every row at some column, the visit tally after the
    loop sums to exactly [num_steps], and the ranks printed are the
    quotients [tally[i] / num_steps]; over exact arithmetic these
    quotients sum to 1. *)
Theorem random_surfer_tally_binary64 transition_matrix n num_steps draws :
  (1 ≤ n)%nat → square n transition_matrix → (0 < num_steps)%Z →
  B64.reaches transition_matrix n (Z.to_nat num_steps) draws →
  ∃ page times_visited,
    B64.surf_walk transition_matrix num_steps draws
    = Ok (page, times_visited)
    ∧ length times_visited = n
    ∧ isum times_visited = num_steps
    ∧ B64.random_surfer transition_matrix num_steps draws
      = (map (λ count, B64.quotient count num_steps) times_visited, None)
    ∧ fsum (map (λ count, float count / float num_steps) times_visited) = 1.
Proof.
  intros Hn Hsq Hsteps Hreach.
  destruct (surf_walk_binary64_tally transition_matrix n draws
              (Z.to_nat num_steps) Hsq Hreach Hn)
    as ([page tv] & E & (_ & Hlen & Hsum) & Hpos).
  simpl in Hlen, Hsum, Hpos. rewrite Z2Nat.id in Hsum by lia.
  assert (B64.surf_walk transition_matrix num_steps draws = Ok (page, tv))
    as Hwalk by (unfold B64.surf_walk; by rewrite (proj1 Hsq)).
  exists page, tv. split; [done |]. split; [done |]. split; [done |].
  split.
  - unfold B64.random_surfer. rewrite Hwalk.
    rewrite (print_ranks_binary64 tv num_steps Hsteps); [done |].
    destruct (isum_nonneg_le tv Hpos) as [_ Hle].
    apply Forall_lookup. intros j count Hcount.
    pose proof (Forall_lookup_1 _ _ _ _ Hpos Hcount) as Hc. simpl in Hc.
    specialize (Hle j count Hcount). lia.
  - rewrite fsum_normalised, Hsum. apply Qcmult_inv_r.
    rewrite float_eq_0. lia.
Qed.

Lemma matrix9_stochastic :
  square 9 B64.matrix9
  ∧ Forall (λ row, Forall (λ p, 0 ≤ B64.exact p) row
                   ∧ fsum (map B64.exact row) = 1) B64.matrix9.
Proof.
  split; [split; [done |]; apply Forall_replicate; done |].
  apply Forall_replicate. split.
  - repeat constructor; by vm_compute.
  - by apply Qc_is_canon.
Qed.

Lemma cycle10_stochastic :
  square 10 B64.cycle10
  ∧ Forall (λ row, Forall (λ p, 0 ≤ B64.exact p) row
                   ∧ fsum (map B64.exact row) = 1) B64.cycle10.
Proof.
  split; [split; [done |]; by repeat constructor |].
  repeat (apply Forall_cons; split;
          [split; [repeat constructor; by vm_compute | by apply Qc_is_canon] |]).
  constructor.
Qed.

(** Two runs on row-stochastic matrices with draws in [[0, 1)].  On
    [matrix9] the draw [1 - 2^-53] is not reached: the running sum stays at
    [1 - 2^-52] and the walk ends in a [TypeError] at its first step, with
    nothing counted or printed.  On [cycle10] ten steps visit every node
    once and the run ends normally, but the ten printed ranks, each the
    double [0.1], sum to [0.9999999999999999] in binary64 and to more than
    1 as exact numbers. *)
Lemma random_surfer_tally_unreached_draw :
  (square 9 B64.matrix9
   ∧ Forall (λ row, Forall (λ p, 0 ≤ B64.exact p) row
                    ∧ fsum (map B64.exact row) = 1) B64.matrix9
   ∧ 0 ≤ B64.exact B64.top_draw < 1
   ∧ B64.surf_walk B64.matrix9 1 (λ _, B64.top_draw) = Raise TypeError
   ∧ B64.random_surfer B64.matrix9 1 (λ _, B64.top_draw)
     = ([], Some (B64.Builtin TypeError)))
  ∧ (square 10 B64.cycle10
     ∧ Forall (λ row, Forall (λ p, 0 ≤ B64.exact p) row
                      ∧ fsum (map B64.exact row) = 1) B64.cycle10
     ∧ 0 ≤ B64.exact 0x1p-1%float < 1
     ∧ B64.random_surfer B64.cycle10 10 (λ _, 0x1p-1%float)
       = (replicate 10 0x1.999999999999ap-4%float, None)
     ∧ PrimFloat.eqb (B64.fsum (replicate 10 0x1.999999999999ap-4%float)) 1
       = false
     ∧ 1 < fsum (map B64.exact (replicate 10 0x1.999999999999ap-4%float))).
Proof.
  split.
  - split; [apply matrix9_stochastic |].
    split; [apply matrix9_stochastic |].
    split; [split; by vm_compute |].
    split; by vm_compute.
  - split; [apply cycle10_stochastic |].
    split; [apply cycle10_stochastic |].
    split; [split; by vm_compute |].
    split; [by vm_compute |]. split; by vm_compute.
Qed.

(** The same on a matrix the code builds itself: five nodes with six
    links each give rows whose running sum ends at [1 - 2^-52]. *)
Example random_surfer_six_links :
  ∃ T, B64.compute_transition B64.six_links B64.six_degrees = B64.Done T
       ∧ B64.random_surfer T 1 (λ _, B64.top_draw)
         = ([], Some (B64.Builtin TypeError)).
Proof. eexists. split; [by vm_compute | by vm_compute]. Qed.

Lemma halves_reaches steps :
  B64.reaches B64.halves 2 steps (λ _, 0x1p-2%float).
Proof.
  intros t page row _ Hrow. exists 0%nat. split; [lia |].
  destruct page as [|[|page]]; [| | done];
    injection Hrow as <-; reflexivity.
Qed.

Lemma random_surfer_tally_binary64_witness :
  ∃ page times_visited,
    B64.surf_walk B64.halves 3 (λ _, 0x1p-2%float)
    = Ok (page, times_visited)
    ∧ length times_visited = 2%nat
    ∧ isum times_visited = 3%Z
    ∧ B64.random_surfer B64.halves 3 (λ _, 0x1p-2%float)
      = (map (λ count, B64.quotient count 3) times_visited, None)
    ∧ fsum (map (λ count, float count / float 3) times_visited) = 1.
Proof.
  apply (random_surfer_tally_binary64 B64.halves 2 3 (λ _, 0x1p-2%float));
    [lia | | lia | apply halves_reaches].
  split; [done |]. by repeat constructor.
Defined.
